(** * secret-room: the sound-effect hook and the sidebar user card

    A shallow embedding of [src/utils/Hooks/useSoundEffect.ts] and of
    [src/app/[serverId]/components/SideBar/UserCard.tsx].

    Conventions of the embedding.
    - A volume is a JavaScript [number] that denotes a real; it is modelled
      as a rational, [Q], compared with [Qeq], [Qle] and [Qlt]: the only
      operations on volumes are [Math.min] and [Math.max], which are exact.
      [NaN] is not a real and is outside the model of the volumes.
    - The intervals, the delays and the values of [Math.random()] are
      binary64 doubles, [float], since the arithmetic that computes a delay
      rounds.
    - A JavaScript string is a sequence of code units, modelled as [string];
      [length] and [slice] count code units.
    - The mutable cells of the hook ([useRef] and [useState]) together with
      the timers of the event loop and the console form one record, [Hook],
      threaded through every operation.
    - An operation that may throw returns a [Result]. *)

From Stdlib Require Import List String Ascii Bool Arith ZArith QArith Qminmax Lia Lqa.
From Stdlib Require Import PrimFloat SpecFloat FloatOps.
#[local] Set Warnings "-inexact-float".
Import ListNotations.
Local Open Scope string_scope.

(** ** Exceptions *)

Inductive JsError : Type :=
| TypeError (msg : string)
| IndexSizeError.

Inductive Result (A : Type) : Type :=
| Ok (a : A)
| Throw (e : JsError).
Arguments Ok {A} a.
Arguments Throw {A} e.

Definition bind {A B : Type} (m : Result A) (k : A -> Result B) : Result B :=
  match m with
  | Ok a => k a
  | Throw e => Throw e
  end.

Notation "x <- m ;; k" := (bind m (fun x => k))
  (at level 61, m at next level, right associativity).

(** ** Numbers *)

(** [Math.min(1, Math.max(0, v))]. *)
Definition clampVolume (v : Q) : Q := Qmin 1 (Qmax 0 v).

(** [Math.floor] of a double: the largest integer not above it, which is a
    double again.  A finite non-zero double is [m * 2 ^ e] for its mantissa
    and exponent; zeros, infinities and [NaN] are returned as they are. *)
Definition floor (x : float) : float :=
  match Prim2SF x with
  | S754_finite sign m e =>
      let n := if sign then Z.neg m else Z.pos m in
      let z := if (0 <=? e)%Z then (n * 2 ^ e)%Z else (n / 2 ^ (- e))%Z in
      SF2Prim (binary_normalize prec emax z 0 false)
  | _ => x
  end.

(** [Math.floor(r * (maxInterval - minInterval + 1)) + minInterval] in double
    arithmetic, where [r] is the value [Math.random()] returned. *)
Definition randomDelay (minInterval maxInterval r : float) : float :=
  (floor (r * (maxInterval - minInterval + 1)) + minInterval)%float.

(** The values [Math.random()] can return: the doubles from 0 up to, but not
    including, 1. *)
Definition isRandom (r : float) : Prop :=
  PrimFloat.leb 0 r = true /\ PrimFloat.ltb r 1 = true.

(** ** The audio element *)

Record Audio : Type := mkAudio {
  aid : nat;              (* object identity, compared by [===] *)
  src : string;
  volume : Q;
  loop : bool;
  preloadAuto : bool;     (* [preload = 'auto'] was assigned *)
  paused : bool;
  currentTime : Q;
  endedListener : bool    (* the hook's ['ended'] listener is attached *)
}.

(** [new Audio(url)]. *)
Definition newAudio (id : nat) (url : string) : Audio :=
  mkAudio id url 1 false false true 0 false.

(** [audio.volume = v] for a real [v]: it throws outside [0, 1].  (For
    [NaN], which the volumes of the model leave out, the browser's setter
    throws a [TypeError].) *)
Definition setVolume (v : Q) (a : Audio) : Result Audio :=
  if Qle_bool 0 v && Qle_bool v 1
  then Ok (mkAudio (aid a) (src a) v (loop a) (preloadAuto a) (paused a)
             (currentTime a) (endedListener a))
  else Throw IndexSizeError.

Definition setLoop (b : bool) (a : Audio) : Audio :=
  mkAudio (aid a) (src a) (volume a) b (preloadAuto a) (paused a)
    (currentTime a) (endedListener a).

Definition setPreloadAuto (a : Audio) : Audio :=
  mkAudio (aid a) (src a) (volume a) (loop a) true (paused a)
    (currentTime a) (endedListener a).

(** [audio.pause()]. *)
Definition pause (a : Audio) : Audio :=
  mkAudio (aid a) (src a) (volume a) (loop a) (preloadAuto a) true
    (currentTime a) (endedListener a).

(** [audio.play()]; its promise settles later, see [playRejected]. *)
Definition play (a : Audio) : Audio :=
  mkAudio (aid a) (src a) (volume a) (loop a) (preloadAuto a) false
    (currentTime a) (endedListener a).

Definition setCurrentTime (t : Q) (a : Audio) : Audio :=
  mkAudio (aid a) (src a) (volume a) (loop a) (preloadAuto a) (paused a)
    t (endedListener a).

Definition addEndedListener (a : Audio) : Audio :=
  mkAudio (aid a) (src a) (volume a) (loop a) (preloadAuto a) (paused a)
    (currentTime a) true.

(** ** The hook's state *)

(** What the callbacks of one render close over. *)
Record Render : Type := mkRender {
  soundUrl : string;
  renderVolume : Q;       (* [currentVolume] as that render saw it *)
  renderLoop : bool;
  minInterval : float;
  maxInterval : float
}.

(** A pending [setTimeout]: its handle, its delay and the render whose
    [scheduleNextPlay] created the callback. *)
Record Timer : Type := mkTimer {
  handle : nat;
  delay : float;
  closure : Render
}.

Record Hook : Type := mkHook {
  audioRef : option Audio;
  intervalRef : option nat;
  isActiveRef : bool;
  isPlaying : bool;
  currentVolume : Q;
  timers : list Timer;    (* timers set and neither fired nor cleared *)
  nextTimer : nat;
  nextAudio : nat;
  console : list (string * string)   (* the arguments of [console.error] *)
}.

(** [useRef(null)], [useRef(null)], [useRef(true)], [useState(false)],
    [useState(storeVolume)]. *)
Definition initialHook (storeVolume : Q) : Hook :=
  mkHook None None true false storeVolume [] 1 0 [].

Definition withAudioRef (a : option Audio) (s : Hook) : Hook :=
  mkHook a (intervalRef s) (isActiveRef s) (isPlaying s) (currentVolume s)
    (timers s) (nextTimer s) (nextAudio s) (console s).

Definition withIntervalRef (t : option nat) (s : Hook) : Hook :=
  mkHook (audioRef s) t (isActiveRef s) (isPlaying s) (currentVolume s)
    (timers s) (nextTimer s) (nextAudio s) (console s).

Definition withIsActiveRef (b : bool) (s : Hook) : Hook :=
  mkHook (audioRef s) (intervalRef s) b (isPlaying s) (currentVolume s)
    (timers s) (nextTimer s) (nextAudio s) (console s).

Definition setIsPlaying (b : bool) (s : Hook) : Hook :=
  mkHook (audioRef s) (intervalRef s) (isActiveRef s) b (currentVolume s)
    (timers s) (nextTimer s) (nextAudio s) (console s).

Definition setCurrentVolume (v : Q) (s : Hook) : Hook :=
  mkHook (audioRef s) (intervalRef s) (isActiveRef s) (isPlaying s) v
    (timers s) (nextTimer s) (nextAudio s) (console s).

Definition withTimers (l : list Timer) (s : Hook) : Hook :=
  mkHook (audioRef s) (intervalRef s) (isActiveRef s) (isPlaying s)
    (currentVolume s) l (nextTimer s) (nextAudio s) (console s).

Definition consoleError (msg error : string) (s : Hook) : Hook :=
  mkHook (audioRef s) (intervalRef s) (isActiveRef s) (isPlaying s)
    (currentVolume s) (timers s) (nextTimer s) (nextAudio s)
    (console s ++ [(msg, error)]).

(** [new Audio(url)] with a fresh identity. *)
Definition allocAudio (url : string) (s : Hook) : Audio * Hook :=
  (newAudio (nextAudio s) url,
   mkHook (audioRef s) (intervalRef s) (isActiveRef s) (isPlaying s)
     (currentVolume s) (timers s) (nextTimer s) (S (nextAudio s)) (console s)).

(** [setTimeout(callback, d)]: a fresh handle, pending from now on. *)
Definition setTimeout (env : Render) (d : float) (s : Hook) : nat * Hook :=
  (nextTimer s,
   mkHook (audioRef s) (intervalRef s) (isActiveRef s) (isPlaying s)
     (currentVolume s) (timers s ++ [mkTimer (nextTimer s) d env])
     (S (nextTimer s)) (nextAudio s) (console s)).

(** [clearInterval(h)]: the timer with that handle is no longer pending. *)
Definition clearInterval (h : nat) (s : Hook) : Hook :=
  withTimers (filter (fun t => negb (Nat.eqb (handle t) h)) (timers s)) s.

(** ** The hook's operations *)

(** [if (intervalRef.current) { clearInterval(...); intervalRef.current = null }]. *)
Definition clearPending (s : Hook) : Hook :=
  match intervalRef s with
  | Some h => withIntervalRef None (clearInterval h s)
  | None => s
  end.

(** [playSoundEffect], lines 121-154.  After [audioRef.current = audio] the
    local [audio] and [audioRef.current] are one object, so the later calls
    on [audio] act on the referenced element. *)
Definition playSoundEffect (env : Render) (s : Hook) : Result Hook :=
  let s :=
    match audioRef s with
    | Some old => withAudioRef (Some (setCurrentTime 0 (pause old))) s
    | None => s
    end in
  let (audio, s) := allocAudio (soundUrl env) s in
  audio <- setVolume (clampVolume (renderVolume env)) audio ;;
  let audio := setLoop (renderLoop env) audio in
  let s := withAudioRef (Some audio) s in
  let s := setIsPlaying true s in
  let audio := play audio in
  let audio := if negb (renderLoop env) then addEndedListener audio else audio in
  Ok (withAudioRef (Some audio) s).

(** The handler given to [audio.play().catch], lines 140-143. *)
Definition playRejected (error : string) (s : Hook) : Result Hook :=
  let s := consoleError "Error playing sound effect:" error s in
  Ok (setIsPlaying false s).

(** The ['ended'] listener of the element with identity [a], lines 147-152. *)
Definition audioEnded (a : nat) (s : Hook) : Result Hook :=
  match audioRef s with
  | Some cur =>
      if Nat.eqb (aid cur) a
      then Ok (setIsPlaying false (withAudioRef None s))
      else Ok s
  | None => Ok s
  end.

(** [stopSoundEffect], lines 156-163. *)
Definition stopSoundEffect (s : Hook) : Result Hook :=
  match audioRef s with
  | Some cur =>
      let s := withAudioRef (Some (setCurrentTime 0 (pause cur))) s in
      let s := withAudioRef None s in
      Ok (setIsPlaying false s)
  | None => Ok s
  end.

(** [adjustVolume], lines 170-183. *)
Definition adjustVolume (newVolume : Q) (s : Hook) : Result (Q * Hook) :=
  let clampedVolume := clampVolume newVolume in
  let s := setCurrentVolume clampedVolume s in
  match audioRef s with
  | Some cur =>
      cur <- setVolume clampedVolume cur ;;
      Ok (clampedVolume, withAudioRef (Some cur) s)
  | None => Ok (clampedVolume, s)
  end.

(** [scheduleNextPlay], lines 108-116; [r] is what [Math.random()] returned. *)
Definition scheduleNextPlay (env : Render) (r : float) (s : Hook) : nat * Hook :=
  let randomDelay := randomDelay (minInterval env) (maxInterval env) r in
  setTimeout env randomDelay s.

(** [startRandomPlayback], lines 100-119. *)
Definition startRandomPlayback (env : Render) (r : float) (s : Hook) : Result Hook :=
  let s := clearPending s in
  let (h, s) := scheduleNextPlay env r s in
  Ok (withIntervalRef (Some h) s).

(** The callback given to [setTimeout], lines 110-115. *)
Definition timerCallback (env : Render) (r : float) (s : Hook) : Result Hook :=
  if isActiveRef s then
    s <- playSoundEffect env s ;;
    let (h, s) := scheduleNextPlay env r s in
    Ok (withIntervalRef (Some h) s)
  else Ok s.

(** The event loop fires the pending timer with handle [h]; a handle that is
    not pending fires nothing. *)
Definition fireTimer (h : nat) (r : float) (s : Hook) : Result Hook :=
  match find (fun t => Nat.eqb (handle t) h) (timers s) with
  | Some t => timerCallback (closure t) r (clearInterval h s)
  | None => Ok s
  end.

(** The body of the first effect, lines 58-70; [volume] is the muted-or-store
    volume of line 49. *)
Definition mountEffect (env : Render) (volume : Q) (preload autoplay : bool)
    (s : Hook) : Result Hook :=
  let s :=
    match audioRef s with
    | None =>
        if preload
        then let (audio, s) := allocAudio (soundUrl env) s in
             withAudioRef (Some audio) s
        else s
    | Some _ => s
    end in
  s <- match audioRef s with
       | Some cur =>
           cur <- setVolume (clampVolume volume) cur ;;
           Ok (withAudioRef (Some (setPreloadAuto cur)) s)
       | None => Ok s
       end ;;
  if autoplay then playSoundEffect env s else Ok s.

(** The cleanup of the first effect, lines 72-80. *)
Definition cleanupEffect (s : Hook) : Result Hook :=
  s <- stopSoundEffect s ;;
  let s := clearPending s in
  Ok (withIsActiveRef false s).

(** The body of the second effect, lines 85-90. *)
Definition randomEffect (env : Render) (playRandomly : bool) (r : float)
    (s : Hook) : Result Hook :=
  if playRandomly && isActiveRef s then startRandomPlayback env r s
  else if negb playRandomly then Ok (clearPending s)
  else Ok s.

(** The cleanup of the second effect, lines 92-97. *)
Definition randomCleanup (s : Hook) : Result Hook := Ok (clearPending s).

(** Playback advances the position of an element that is not paused. *)
Definition audioProgress (dt : Q) (s : Hook) : Result Hook :=
  match audioRef s with
  | Some cur =>
      if paused cur then Ok s
      else Ok (withAudioRef (Some (setCurrentTime (currentTime cur + dt) cur)) s)
  | None => Ok s
  end.

(** ** Runs of the hook *)

(** Everything that can happen to a mounted hook: calls of the returned
    functions, React running effects and cleanups, and the browser's timer,
    media and promise callbacks.  Each callback carries the render it closes
    over; which render that is, is left open. *)
Inductive Event : Type :=
| CallPlay (env : Render)
| CallStop
| CallStartRandom (env : Render) (r : float)
| CallAdjustVolume (v : Q)
| TimerFires (h : nat) (r : float)
| AudioEnded (a : nat)
| PlayRejected (error : string)
| AudioProgress (dt : Q)
| EffectRuns (env : Render) (volume : Q) (preload autoplay : bool)
| EffectCleanup
| RandomEffectRuns (env : Render) (playRandomly : bool) (r : float)
| RandomEffectCleanup.

Definition run (e : Event) (s : Hook) : Result Hook :=
  match e with
  | CallPlay env => playSoundEffect env s
  | CallStop => stopSoundEffect s
  | CallStartRandom env r => startRandomPlayback env r s
  | CallAdjustVolume v => vs <- adjustVolume v s ;; Ok (snd vs)
  | TimerFires h r => fireTimer h r s
  | AudioEnded a => audioEnded a s
  | PlayRejected error => playRejected error s
  | AudioProgress dt => audioProgress dt s
  | EffectRuns env volume preload autoplay =>
      mountEffect env volume preload autoplay s
  | EffectCleanup => cleanupEffect s
  | RandomEffectRuns env playRandomly r => randomEffect env playRandomly r s
  | RandomEffectCleanup => randomCleanup s
  end.

Fixpoint runAll (es : list Event) (s : Hook) : Result Hook :=
  match es with
  | [] => Ok s
  | e :: es => s <- run e s ;; runAll es s
  end.

(** The states a hook can be in: those some run reaches from the first
    render. *)
Definition reachable (s : Hook) : Prop :=
  exists storeVolume es, runAll es (initialHook storeVolume) = Ok s.

(** ** The user card *)

(** A chat message of the store, with the fields the card reads. *)
Record Message : Type := mkMessage {
  senderId : string;
  receiverId : string;
  content : string;
  readByReceiver : bool;
  attachmentUrl : option string
}.

(** [ServerUser] of [server.types.ts]; [lastSeen] is a timestamp. *)
Record ServerUser : Type := mkServerUser {
  userId : string;
  username : string;
  isOnline : bool;
  lastSeen : Z;
  bgColor : string;
  textColor : string
}.

(** [ServerResponse] of [server.types.ts]; [expiration] is a timestamp. *)
Record ServerResponse : Type := mkServerResponse {
  server_name : string;
  server_id : string;
  expiration : Z;
  global_invitation_id : string;
  owner : string
}.

(** What the card takes from [useServerStore()]. *)
Record ServerStore : Type := mkServerStore {
  server : option ServerResponse;
  messages : list Message;
  activeUsers : list ServerUser;
  typingUsers : list string
}.

(** [message.receiverId === userId || message.senderId === userId]. *)
Definition concerns (uid : string) (message : Message) : bool :=
  String.eqb (receiverId message) uid || String.eqb (senderId message) uid.

(** [Boolean(x)] for an object or [null]. *)
Definition Boolean {A : Type} (x : option A) : bool :=
  match x with Some _ => true | None => false end.

(** [array.pop()]: the last element, [undefined] on an empty array. *)
Definition pop {A : Type} (l : list (option A)) : option A := last l None.

(** [lastMessage], lines 41-46. *)
Definition lastMessage (uid : string) (msgs : list Message) : option Message :=
  pop (filter Boolean
         (map (fun message => if concerns uid message then Some message else None)
            msgs)).

(** [typingUsers.includes(userId)]. *)
Definition includes (l : list string) (x : string) : bool :=
  existsb (String.eqb x) l.

(** [s.slice(0, 20)]. *)
Definition slice20 (s : string) : string := substring 0 20 s.

(** The content part of line 79. *)
Definition displayContent (s : string) : string :=
  if Nat.ltb 20 (String.length s) then slice20 s ++ "..." else s.

(** The text of the paragraph, line 79. *)
Definition subtitle (st : ServerStore) (srv : ServerResponse) (uid : string)
    : string :=
  if includes (typingUsers st) uid then "Typing..."
  else match lastMessage uid (messages st) with
       | Some m =>
           (if String.eqb (senderId m) (owner srv) then "You: " else "")
           ++ displayContent (content m)
       | None => "No messages yet."
       end.

(** [lastMessage?.senderId === server.owner]. *)
Definition sentByOwner (srv : ServerResponse) (m : option Message) : bool :=
  match m with
  | Some m => String.eqb (senderId m) (owner srv)
  | None => false
  end.

(** [lastMessage?.readByReceiver === false]. *)
Definition unread (m : option Message) : bool :=
  match m with
  | Some m => negb (readByReceiver m)
  | None => false
  end.

(** The class of the paragraph, line 78. *)
Definition subtitleClass (st : ServerStore) (srv : ServerResponse)
    (uid : string) : string :=
  let m := lastMessage uid (messages st) in
  if includes (typingUsers st) uid then "text-orange-400 animate-pulse"
  else if sentByOwner srv m then "text-gray-400 italic"
  else if unread m then "text-white" else "text-gray-400".

(** Whether the row gets the unread highlight, line 60. *)
Definition highlighted (st : ServerStore) (srv : ServerResponse)
    (uid : string) : bool :=
  let m := lastMessage uid (messages st) in
  if sentByOwner srv m then false else unread m.

(** [lastMessage?.attachmentUrl && <FaPaperclip/>]: a non-empty URL. *)
Definition showsPaperclip (st : ServerStore) (uid : string) : bool :=
  match lastMessage uid (messages st) with
  | Some m =>
      match attachmentUrl m with
      | Some url => negb (String.eqb url "")
      | None => false
      end
  | None => false
  end.

(** What the card puts on the page. *)
Record View : Type := mkView {
  avatarInitial : string;
  onlineDot : string;
  title : string;
  subtitleText : string;
  subtitleClasses : string;
  rowHighlighted : bool;
  paperclip : bool
}.

Section UserCard.

(** [String.prototype.toUpperCase] is the browser's. *)
Variable toUpperCase : string -> string.

(** [username[0].toUpperCase()], line 72: [username[0]] is [undefined] for
    the empty string, and a method call on [undefined] throws. *)
Definition initial (name : string) : Result string :=
  match String.get 0 name with
  | Some c => Ok (toUpperCase (String c ""))
  | None =>
      Throw (TypeError "Cannot read properties of undefined (reading 'toUpperCase')")
  end.

(** The component, lines 39-89: [null] without a server. *)
Definition UserCard (st : ServerStore) (user : ServerUser)
    : Result (option View) :=
  match server st with
  | None => Ok None
  | Some srv =>
      letter <- initial (username user) ;;
      Ok (Some (mkView letter
                  (if isOnline user then "bg-green-500" else "bg-gray-500")
                  (username user)
                  (subtitle st srv (userId user))
                  (subtitleClass st srv (userId user))
                  (highlighted st srv (userId user))
                  (showsPaperclip st (userId user))))
  end.

End UserCard.

(** [toUpperCase] on the letters a-z; other code units are kept. *)
Definition upperAscii (c : ascii) : ascii :=
  let n := nat_of_ascii c in
  if Nat.leb 97 n && Nat.leb n 122 then ascii_of_nat (n - 32) else c.

Fixpoint asciiToUpperCase (s : string) : string :=
  match s with
  | EmptyString => EmptyString
  | String c rest => String (upperAscii c) (asciiToUpperCase rest)
  end.

(** The card's two sounds and the calls it made on the store. *)
Record Card : Type := mkCard {
  playPressSound : Hook;
  playOpenSound : Hook;
  chattingCalls : list ServerUser   (* arguments of [setCurrentlyChatting] *)
}.

(** [handleSetCurrentlyChatting], lines 48-54. *)
Definition handleSetCurrentlyChatting (pressEnv openEnv : Render)
    (st : ServerStore) (uid : string) (c : Card) : Result Card :=
  press <- playSoundEffect pressEnv (playPressSound c) ;;
  match find (fun user => String.eqb (userId user) uid) (activeUsers st) with
  | None => Ok (mkCard press (playOpenSound c) (chattingCalls c))
  | Some user =>
      open <- playSoundEffect openEnv (playOpenSound c) ;;
      Ok (mkCard press open (chattingCalls c ++ [user]))
  end.

(** ** Invariants of the runs *)

(** The playing flag is only up while an element is referenced. *)
Definition playingInv (s : Hook) : Prop :=
  isPlaying s = true -> audioRef s <> None.

(** At most one timer is pending, and [intervalRef] holds its handle. *)
Definition timerInv (s : Hook) : Prop :=
  timers s = [] \/ exists t, timers s = [t] /\ intervalRef s = Some (handle t).

(** ** The last message, as specified *)

(** The last message as the specification words it: the last element of the
    list whose sender or receiver is the card's user. *)
Definition specLastMessage (uid : string) (msgs : list Message) : option Message :=
  find (concerns uid) (rev msgs).

(** ** Sample states *)

(** A render whose intervals are 0 and 0.5 milliseconds. *)
Definition halfRender : Render := mkRender "/audio/press.mp3" 1 false 0 0.5.

(** The press sound of the card, with the default intervals. *)
Definition pressRender : Render := mkRender "/audio/press.mp3" 1 false 5000 15000.

(** A hook that is playing the press sound and has a replay pending. *)
Definition busyHook : Hook :=
  mkHook (Some (mkAudio 0 "/audio/press.mp3" 1 false false false 0 true))
    (Some 1%nat) true true 1 [mkTimer 1 10000 pressRender] 2 1 [].

Definition room : ServerResponse := mkServerResponse "room" "s1" 0 "g1" "u0".
Definition bob : ServerUser := mkServerUser "u1" "bob" true 0 "#000" "#fff".

Definition hello : Message := mkMessage "u1" "u0" "hello" false None.
Definition reply : Message := mkMessage "u0" "u1" "hi there" true None.
Definition other : Message := mkMessage "u0" "u2" "unrelated" true None.

Definition longMessage : Message :=
  mkMessage "u0" "u1" "The quick brown fox jumps over the lazy dog" true None.

(** ** Mounting the hook *)

(** One entry of the setting store: [volume] and [isMuted]. *)
Record SoundSetting : Type := mkSoundSetting {
  settingVolume : Q;
  isMuted : bool
}.

(** The [options] argument of the hook, lines 23-32; a field left out is
    [None].  [Key] stands for [SoundControlKey]. *)
Module Options.
Record t (Key : Type) : Type := make {
  volume : option Q;
  preload : option bool;
  loop : option bool;
  playRandomly : option bool;
  minInterval : option float;
  maxInterval : option float;
  autoplay : option bool;
  settingsKey : option Key
}.
Arguments make {Key}.
Arguments volume {Key}.
Arguments preload {Key}.
Arguments loop {Key}.
Arguments playRandomly {Key}.
Arguments minInterval {Key}.
Arguments maxInterval {Key}.
Arguments autoplay {Key}.
Arguments settingsKey {Key}.
End Options.

(** A destructuring default, lines 34-43. *)
Definition orDefault {A : Type} (x : option A) (d : A) : A :=
  match x with Some v => v | None => d end.

(** [storeVolume], line 47; [settings k] is [settings[k]]. *)
Definition storeVolume {Key : Type} (settings : Key -> option SoundSetting)
    (options : Options.t Key) : Q :=
  let initialVolume := orDefault (Options.volume options) 1 in
  match Options.settingsKey options with
  | Some k =>
      match settings k with
      | Some entry => settingVolume entry
      | None => initialVolume
      end
  | None => initialVolume
  end.

(** [isMuted], line 48. *)
Definition storeMuted {Key : Type} (settings : Key -> option SoundSetting)
    (options : Options.t Key) : bool :=
  match Options.settingsKey options with
  | Some k =>
      match settings k with
      | Some entry => isMuted entry
      | None => false
      end
  | None => false
  end.

(** [volume], line 49. *)
Definition mutedVolume {Key : Type} (settings : Key -> option SoundSetting)
    (options : Options.t Key) : Q :=
  if storeMuted settings options then 0 else storeVolume settings options.

(** What the callbacks of the first render close over: [currentVolume] is
    still the initial state, [storeVolume]. *)
Definition firstRender {Key : Type} (url : string)
    (settings : Key -> option SoundSetting) (options : Options.t Key) : Render :=
  mkRender url (storeVolume settings options)
    (orDefault (Options.loop options) false)
    (orDefault (Options.minInterval options) 5000%float)
    (orDefault (Options.maxInterval options) 15000%float).

(** The first render followed by its two effects, lines 46-98. *)
Definition mount {Key : Type} (url : string)
    (settings : Key -> option SoundSetting) (options : Options.t Key) (r : float)
    : Result Hook :=
  let env := firstRender url settings options in
  let s := initialHook (storeVolume settings options) in
  s <- mountEffect env (mutedVolume settings options)
         (orDefault (Options.preload options) true)
         (orDefault (Options.autoplay options) false) s ;;
  randomEffect env (orDefault (Options.playRandomly options) false) r s.

(** The two cleanups of an unmount, in the order of their effects. *)
Definition unmount (s : Hook) : Result Hook :=
  s <- cleanupEffect s ;;
  randomCleanup s.

(** A render that saw the current state of the hook. *)
Definition freshRender (url : string) (loops : bool) (lo hi : float) (s : Hook)
    : Render :=
  mkRender url (currentVolume s) loops lo hi.

(** ** The card's volume effects *)

(** The two entries of the setting store the card reads. *)
Record Settings : Type := mkSettings {
  otherUISound : SoundSetting;
  buttonSound : SoundSetting
}.

(** [entry.isMuted ? 0 : entry.volume], lines 23, 27, 32 and 36. *)
Definition audible (entry : SoundSetting) : Q :=
  if isMuted entry then 0 else settingVolume entry.

(** The effects of lines 31-37, in their order. *)
Definition syncVolumes (settings : Settings) (c : Card) : Result Card :=
  open <- adjustVolume (audible (otherUISound settings)) (playOpenSound c) ;;
  press <- adjustVolume (audible (buttonSound settings)) (playPressSound c) ;;
  Ok (mkCard (snd press) (snd open) (chattingCalls c)).

(** ** Further invariants of the runs *)

(** The referenced element has a volume the browser accepts and an identity
    already given out. *)
Definition audioInv (s : Hook) : Prop :=
  forall a, audioRef s = Some a ->
    (0 <= volume a /\ volume a <= 1) /\ (aid a < nextAudio s)%nat.

(** Every handle in use was given out by [setTimeout]. *)
Definition handleInv (s : Hook) : Prop :=
  (forall t, In t (timers s) -> (handle t < nextTimer s)%nat)
  /\ (forall h, intervalRef s = Some h -> (h < nextTimer s)%nat).

(** ** Sample settings *)

(** A store whose button sound is muted at volume 1/2. *)
Definition sampleStore (key : string) : option SoundSetting :=
  if String.eqb key "buttonSound" then Some (mkSoundSetting (1 # 2) true)
  else None.

(** [{ settingsKey: 'buttonSound' }]. *)
Definition buttonOptions : Options.t string :=
  Options.make None None None None None None None (Some "buttonSound").

Definition sampleSettings : Settings :=
  mkSettings (mkSoundSetting (3 # 4) false) (mkSoundSetting (1 # 2) true).

Definition sampleCard : Card := mkCard busyHook (initialHook 1) [].

(** * Properties *)

(** ** Volume *)

Lemma clampVolume_range (v : Q) : 0 <= clampVolume v /\ clampVolume v <= 1.
Proof.
  unfold clampVolume.
  destruct (Q.max_spec 0 v) as [[Hlt Hmax] | [Hle Hmax]];
    destruct (Q.min_spec 1 (Qmax 0 v)) as [[Hlt' Hmin] | [Hle' Hmin]];
    rewrite Hmin; try rewrite Hmax; split; lra.
Qed.

Lemma clampVolume_fixed (v : Q) : 0 <= v -> v <= 1 -> clampVolume v == v.
Proof.
  intros H0 H1. unfold clampVolume.
  destruct (Q.max_spec 0 v) as [[Hlt Hmax] | [Hle Hmax]];
    destruct (Q.min_spec 1 (Qmax 0 v)) as [[Hlt' Hmin] | [Hle' Hmin]];
    rewrite Hmin; try rewrite Hmax; rewrite Hmax in *; lra.
Qed.

Lemma setVolume_in_range (v : Q) (a : Audio) :
  0 <= v -> v <= 1 ->
  setVolume v a =
  Ok (mkAudio (aid a) (src a) v (loop a) (preloadAuto a) (paused a)
        (currentTime a) (endedListener a)).
Proof.
  intros H0 H1. unfold setVolume.
  apply Qle_bool_iff in H0. apply Qle_bool_iff in H1.
  rewrite H0, H1. reflexivity.
Qed.

Lemma setVolume_clamp (v : Q) (a : Audio) :
  setVolume (clampVolume v) a =
  Ok (mkAudio (aid a) (src a) (clampVolume v) (loop a) (preloadAuto a)
        (paused a) (currentTime a) (endedListener a)).
Proof.
  destruct (clampVolume_range v). now apply setVolume_in_range.
Qed.

(** ** The operations return *)

Lemma playSoundEffect_ok (env : Render) (s : Hook) :
  exists audio,
    playSoundEffect env s =
    Ok (mkHook (Some audio) (intervalRef s) (isActiveRef s) true
          (currentVolume s) (timers s) (nextTimer s) (S (nextAudio s))
          (console s))
    /\ aid audio = nextAudio s
    /\ paused audio = false
    /\ volume audio == clampVolume (renderVolume env).
Proof.
  unfold playSoundEffect.
  destruct (audioRef s) as [old|]; cbn [allocAudio withAudioRef nextAudio];
    rewrite setVolume_clamp; cbn [bind];
    eexists; (split; [reflexivity|]);
    destruct (renderLoop env); cbn; repeat split; reflexivity.
Qed.

Lemma stopSoundEffect_ok (s : Hook) :
  stopSoundEffect s =
  Ok (match audioRef s with
      | Some _ => setIsPlaying false (withAudioRef None s)
      | None => s
      end).
Proof. unfold stopSoundEffect. destruct (audioRef s); reflexivity. Qed.

Lemma adjustVolume_ok (v : Q) (s : Hook) :
  adjustVolume v s =
  Ok (clampVolume v,
      mkHook
        (match audioRef s with
         | Some a =>
             Some (mkAudio (aid a) (src a) (clampVolume v) (loop a)
                     (preloadAuto a) (paused a) (currentTime a)
                     (endedListener a))
         | None => None
         end)
        (intervalRef s) (isActiveRef s) (isPlaying s) (clampVolume v)
        (timers s) (nextTimer s) (nextAudio s) (console s)).
Proof.
  unfold adjustVolume, setCurrentVolume, withAudioRef. cbn.
  destruct (audioRef s) as [a|]; [rewrite setVolume_clamp|]; reflexivity.
Qed.

Lemma startRandomPlayback_ok (env : Render) (r : float) (s : Hook) :
  startRandomPlayback env r s =
  Ok (mkHook (audioRef s) (Some (nextTimer s)) (isActiveRef s) (isPlaying s)
        (currentVolume s)
        (timers (clearPending s)
           ++ [mkTimer (nextTimer s)
                 (randomDelay (minInterval env) (maxInterval env) r) env])
        (S (nextTimer s)) (nextAudio s) (console s)).
Proof.
  unfold startRandomPlayback, scheduleNextPlay, setTimeout, clearPending.
  destruct (intervalRef s); reflexivity.
Qed.

Lemma timerCallback_ok (env : Render) (r : float) (s : Hook) :
  exists s', timerCallback env r s = Ok s'.
Proof.
  unfold timerCallback. destruct (isActiveRef s); [|eauto].
  destruct (playSoundEffect_ok env s) as (a & -> & _). cbn. eauto.
Qed.

Lemma mountEffect_ok (env : Render) (v : Q) (preload autoplay : bool) (s : Hook) :
  exists s', mountEffect env v preload autoplay s = Ok s'.
Proof.
  unfold mountEffect.
  destruct (audioRef s) as [a|] eqn:Ha.
  - rewrite Ha, setVolume_clamp. cbn [bind].
    destruct autoplay; [|eauto].
    match goal with |- context [playSoundEffect ?e ?x] =>
      destruct (playSoundEffect_ok e x) as (? & -> & _) end. eauto.
  - destruct preload; cbn [allocAudio withAudioRef audioRef].
    + rewrite setVolume_clamp. cbn [bind].
      destruct autoplay; [|eauto].
      match goal with |- context [playSoundEffect ?e ?x] =>
        destruct (playSoundEffect_ok e x) as (? & -> & _) end. eauto.
    + rewrite Ha. cbn [bind].
      destruct autoplay; [|eauto].
      destruct (playSoundEffect_ok env s) as (? & -> & _). eauto.
Qed.

(** No event makes the hook throw. *)
Lemma run_ok (e : Event) (s : Hook) : exists s', run e s = Ok s'.
Proof.
  destruct e; cbn [run].
  - destruct (playSoundEffect_ok env s) as (? & -> & _). eauto.
  - rewrite stopSoundEffect_ok. eauto.
  - rewrite startRandomPlayback_ok. eauto.
  - rewrite adjustVolume_ok. cbn. eauto.
  - unfold fireTimer. destruct (find _ _); [apply timerCallback_ok | eauto].
  - unfold audioEnded. destruct (audioRef s); [destruct (Nat.eqb _ _)|]; eauto.
  - unfold playRejected. eauto.
  - unfold audioProgress. destruct (audioRef s) as [a|]; [destruct (paused a)|]; eauto.
  - apply mountEffect_ok.
  - unfold cleanupEffect. rewrite stopSoundEffect_ok. cbn. eauto.
  - unfold randomEffect. destruct (playRandomly && isActiveRef s).
    + rewrite startRandomPlayback_ok. eauto.
    + destruct (negb playRandomly); eauto.
  - unfold randomCleanup. eauto.
Qed.

(** ** The runs keep the invariants *)

Lemma timerCallback_active (env : Render) (r : float) (s : Hook) :
  isActiveRef s = true ->
  exists audio,
    timerCallback env r s =
    Ok (mkHook (Some audio) (Some (nextTimer s)) true true (currentVolume s)
          (timers s
             ++ [mkTimer (nextTimer s)
                   (randomDelay (minInterval env) (maxInterval env) r) env])
          (S (nextTimer s)) (S (nextAudio s)) (console s))
    /\ aid audio = nextAudio s /\ paused audio = false.
Proof.
  intros Hact. unfold timerCallback. rewrite Hact.
  destruct (playSoundEffect_ok env s) as (a & -> & Hid & Hp & _).
  exists a. cbn. rewrite Hact. auto.
Qed.

Lemma timerCallback_inactive (env : Render) (r : float) (s : Hook) :
  isActiveRef s = false -> timerCallback env r s = Ok s.
Proof. intros Hact. unfold timerCallback. now rewrite Hact. Qed.

Lemma clearPending_timers (s : Hook) :
  timerInv s -> timers (clearPending s) = [].
Proof.
  unfold clearPending. intros [Hnil | (t & Ht & Href)].
  - destruct (intervalRef s); cbn; rewrite Hnil; reflexivity.
  - rewrite Href. cbn. rewrite Ht. cbn. now rewrite Nat.eqb_refl.
Qed.

Lemma clearPending_fields (s : Hook) :
  audioRef (clearPending s) = audioRef s
  /\ isPlaying (clearPending s) = isPlaying s
  /\ isActiveRef (clearPending s) = isActiveRef s
  /\ nextTimer (clearPending s) = nextTimer s
  /\ nextAudio (clearPending s) = nextAudio s
  /\ currentVolume (clearPending s) = currentVolume s
  /\ console (clearPending s) = console s.
Proof. unfold clearPending. destruct (intervalRef s); cbn; repeat split. Qed.

Lemma fireTimer_pending (h : nat) (r : float) (s : Hook) :
  timerInv s ->
  forall t, find (fun t => Nat.eqb (handle t) h) (timers s) = Some t ->
  timers s = [t] /\ handle t = h /\ intervalRef s = Some h
  /\ timers (clearInterval h s) = [].
Proof.
  intros Hinv t Hfind.
  destruct Hinv as [Hnil | (t' & Ht & Href)].
  - rewrite Hnil in Hfind. discriminate.
  - rewrite Ht in Hfind. cbn in Hfind.
    destruct (Nat.eqb (handle t') h) eqn:E; [|discriminate].
    injection Hfind as <-. apply Nat.eqb_eq in E.
    repeat split; auto.
    + now rewrite Href, E.
    + unfold clearInterval. cbn. rewrite Ht. cbn.
      subst h. now rewrite Nat.eqb_refl.
Qed.

Lemma initialHook_inv (v : Q) :
  playingInv (initialHook v) /\ timerInv (initialHook v).
Proof. split; [intros H; discriminate | now left]. Qed.

Lemma mountEffect_frame (env : Render) (v : Q) (preload autoplay : bool)
    (s s' : Hook) :
  mountEffect env v preload autoplay s = Ok s' ->
  timers s' = timers s /\ intervalRef s' = intervalRef s
  /\ isActiveRef s' = isActiveRef s /\ nextTimer s' = nextTimer s
  /\ (audioRef s' <> None \/ audioRef s = None /\ isPlaying s' = isPlaying s).
Proof.
  unfold mountEffect.
  destruct (audioRef s) as [a|] eqn:Ha.
  - rewrite Ha, setVolume_clamp. cbn [bind].
    destruct autoplay.
    + match goal with |- context [playSoundEffect ?e ?x] =>
        destruct (playSoundEffect_ok e x) as (? & -> & _) end.
      intros [= <-]. cbn. repeat split. left. discriminate.
    + intros [= <-]. cbn. repeat split. left. discriminate.
  - destruct preload; cbn [allocAudio withAudioRef audioRef].
    + rewrite setVolume_clamp. cbn [bind].
      destruct autoplay.
      * match goal with |- context [playSoundEffect ?e ?x] =>
          destruct (playSoundEffect_ok e x) as (? & -> & _) end.
        intros [= <-]. cbn. repeat split. left. discriminate.
      * intros [= <-]. cbn. repeat split. left. discriminate.
    + rewrite Ha. cbn [bind].
      destruct autoplay.
      * destruct (playSoundEffect_ok env s) as (? & -> & _).
        intros [= <-]. cbn. repeat split. left. discriminate.
      * intros [= <-]. repeat split. now right.
Qed.

Lemma run_playingInv (e : Event) (s s' : Hook) :
  playingInv s -> run e s = Ok s' -> playingInv s'.
Proof.
  unfold playingInv. intros Hinv Hrun.
  destruct e; cbn [run] in Hrun.
  - destruct (playSoundEffect_ok env s) as (a & Heq & _).
    rewrite Heq in Hrun. injection Hrun as <-. cbn. discriminate.
  - rewrite stopSoundEffect_ok in Hrun. injection Hrun as <-.
    destruct (audioRef s) eqn:Ha; cbn; [discriminate | now rewrite Ha].
  - rewrite startRandomPlayback_ok in Hrun. injection Hrun as <-. exact Hinv.
  - rewrite adjustVolume_ok in Hrun. cbn in Hrun. injection Hrun as <-. cbn.
    intros Hp. specialize (Hinv Hp). destruct (audioRef s); congruence.
  - unfold fireTimer in Hrun.
    destruct (find _ _) as [t|]; [|injection Hrun as <-; exact Hinv].
    destruct (isActiveRef (clearInterval h s)) eqn:Hact.
    + destruct (timerCallback_active (closure t) r _ Hact) as (a & Heq & _).
      rewrite Heq in Hrun. injection Hrun as <-. cbn. discriminate.
    + rewrite timerCallback_inactive in Hrun by exact Hact.
      injection Hrun as <-. exact Hinv.
  - unfold audioEnded in Hrun.
    destruct (audioRef s) as [cur|] eqn:Ha.
    + destruct (Nat.eqb (aid cur) a); injection Hrun as <-; cbn.
      * discriminate.
      * now rewrite Ha.
    + injection Hrun as <-. now rewrite Ha.
  - unfold playRejected in Hrun. injection Hrun as <-. cbn. discriminate.
  - unfold audioProgress in Hrun.
    destruct (audioRef s) as [cur|] eqn:Ha.
    + destruct (paused cur); injection Hrun as <-; cbn.
      * now rewrite Ha.
      * discriminate.
    + injection Hrun as <-. now rewrite Ha.
  - apply mountEffect_frame in Hrun.
    destruct Hrun as (_ & _ & _ & _ & [Hsome | [Hnone Hp]]); [auto|].
    rewrite Hp. intros Hplay. now apply Hinv in Hplay.
  - unfold cleanupEffect in Hrun. rewrite stopSoundEffect_ok in Hrun.
    cbn in Hrun. injection Hrun as <-. cbn.
    destruct (clearPending_fields
                (match audioRef s with
                 | Some _ => setIsPlaying false (withAudioRef None s)
                 | None => s
                 end)) as (Ha & Hp & _).
    rewrite Ha, Hp. destruct (audioRef s) eqn:Hs; cbn; [discriminate|].
    now rewrite Hs.
  - unfold randomEffect in Hrun.
    destruct (playRandomly && isActiveRef s).
    + rewrite startRandomPlayback_ok in Hrun. injection Hrun as <-. exact Hinv.
    + destruct (negb playRandomly); injection Hrun as <-; [|exact Hinv].
      destruct (clearPending_fields s) as (Ha & Hp & _). now rewrite Ha, Hp.
  - unfold randomCleanup in Hrun. injection Hrun as <-.
    destruct (clearPending_fields s) as (Ha & Hp & _). now rewrite Ha, Hp.
Qed.

Lemma timerInv_frame (s s' : Hook) :
  timers s' = timers s -> intervalRef s' = intervalRef s ->
  timerInv s -> timerInv s'.
Proof. unfold timerInv. intros -> ->. auto. Qed.

Lemma stopped_frame (s : Hook) :
  let s' := match audioRef s with
            | Some _ => setIsPlaying false (withAudioRef None s)
            | None => s
            end in
  timers s' = timers s /\ intervalRef s' = intervalRef s
  /\ isActiveRef s' = isActiveRef s /\ nextTimer s' = nextTimer s
  /\ nextAudio s' = nextAudio s.
Proof. destruct (audioRef s); cbn; auto. Qed.

Lemma run_timerInv (e : Event) (s s' : Hook) :
  timerInv s -> run e s = Ok s' -> timerInv s'.
Proof.
  intros Hinv Hrun.
  destruct e; cbn [run] in Hrun.
  - destruct (playSoundEffect_ok env s) as (a & Heq & _).
    rewrite Heq in Hrun. injection Hrun as <-.
    now apply (timerInv_frame s).
  - rewrite stopSoundEffect_ok in Hrun. injection Hrun as <-.
    destruct (stopped_frame s) as (Ht & Hi & _).
    now apply (timerInv_frame s).
  - rewrite startRandomPlayback_ok in Hrun. injection Hrun as <-.
    right. cbn. rewrite clearPending_timers by exact Hinv.
      eexists; split; reflexivity.
  - rewrite adjustVolume_ok in Hrun. cbn in Hrun. injection Hrun as <-.
    now apply (timerInv_frame s).
  - unfold fireTimer in Hrun.
    destruct (find _ _) as [t|] eqn:Hfind; [|injection Hrun as <-; exact Hinv].
    destruct (fireTimer_pending h r s Hinv t Hfind) as (_ & _ & _ & Hnil).
    destruct (isActiveRef (clearInterval h s)) eqn:Hact.
    + destruct (timerCallback_active (closure t) r _ Hact) as (a & Heq & _).
      rewrite Heq in Hrun. injection Hrun as <-.
      right. cbn [timers intervalRef]. cbn [clearInterval withTimers timers] in Hnil |- *.
      rewrite Hnil. eexists; split; reflexivity.
    + rewrite timerCallback_inactive in Hrun by exact Hact.
      injection Hrun as <-. now left.
  - unfold audioEnded in Hrun.
    destruct (audioRef s) as [cur|]; [destruct (Nat.eqb (aid cur) a)|];
      injection Hrun as <-; now apply (timerInv_frame s).
  - unfold playRejected in Hrun. injection Hrun as <-.
    now apply (timerInv_frame s).
  - unfold audioProgress in Hrun.
    destruct (audioRef s) as [cur|]; [destruct (paused cur)|];
      injection Hrun as <-; now apply (timerInv_frame s).
  - apply mountEffect_frame in Hrun. destruct Hrun as (Ht & Hi & _).
    now apply (timerInv_frame s).
  - unfold cleanupEffect in Hrun. rewrite stopSoundEffect_ok in Hrun.
    cbn in Hrun. injection Hrun as <-. left. cbn.
    apply clearPending_timers.
    destruct (stopped_frame s) as (Ht & Hi & _).
    now apply (timerInv_frame s).
  - unfold randomEffect in Hrun.
    destruct (playRandomly && isActiveRef s).
    + rewrite startRandomPlayback_ok in Hrun. injection Hrun as <-.
      right. cbn. rewrite clearPending_timers by exact Hinv.
      eexists; split; reflexivity.
    + destruct (negb playRandomly); injection Hrun as <-; [|exact Hinv].
      left. now apply clearPending_timers.
  - unfold randomCleanup in Hrun. injection Hrun as <-.
    left. now apply clearPending_timers.
Qed.

(** Nothing raises the active flag again. *)
Lemma run_inactive (e : Event) (s s' : Hook) :
  isActiveRef s = false -> run e s = Ok s' -> isActiveRef s' = false.
Proof.
  intros Hoff Hrun.
  destruct e; cbn [run] in Hrun.
  - destruct (playSoundEffect_ok env s) as (a & Heq & _).
    rewrite Heq in Hrun. now injection Hrun as <-.
  - rewrite stopSoundEffect_ok in Hrun. injection Hrun as <-.
    destruct (stopped_frame s) as (_ & _ & Ha & _). now rewrite Ha.
  - rewrite startRandomPlayback_ok in Hrun. now injection Hrun as <-.
  - rewrite adjustVolume_ok in Hrun. cbn in Hrun. now injection Hrun as <-.
  - unfold fireTimer in Hrun.
    destruct (find _ _) as [t|]; [|now injection Hrun as <-].
    rewrite timerCallback_inactive in Hrun by exact Hoff.
    now injection Hrun as <-.
  - unfold audioEnded in Hrun.
    destruct (audioRef s) as [cur|]; [destruct (Nat.eqb (aid cur) a)|];
      now injection Hrun as <-.
  - unfold playRejected in Hrun. now injection Hrun as <-.
  - unfold audioProgress in Hrun.
    destruct (audioRef s) as [cur|]; [destruct (paused cur)|];
      now injection Hrun as <-.
  - apply mountEffect_frame in Hrun. destruct Hrun as (_ & _ & Ha & _).
    now rewrite Ha.
  - unfold cleanupEffect in Hrun. rewrite stopSoundEffect_ok in Hrun.
    cbn in Hrun. now injection Hrun as <-.
  - unfold randomEffect in Hrun. rewrite Hoff, andb_false_r in Hrun.
    destruct (negb playRandomly); injection Hrun as <-; [|exact Hoff].
    destruct (clearPending_fields s) as (_ & _ & Ha & _). now rewrite Ha.
  - unfold randomCleanup in Hrun. injection Hrun as <-.
    destruct (clearPending_fields s) as (_ & _ & Ha & _). now rewrite Ha.
Qed.

Lemma runAll_inv (es : list Event) :
  forall s s',
    playingInv s /\ timerInv s -> runAll es s = Ok s' ->
    playingInv s' /\ timerInv s'.
Proof.
  induction es as [|e es IH]; intros s s' Hinv Hrun; cbn in Hrun.
  - now injection Hrun as <-.
  - destruct (run e s) as [s1|err] eqn:He; [|discriminate].
    cbn in Hrun. apply (IH s1); [|exact Hrun].
    destruct Hinv. split; [eapply run_playingInv | eapply run_timerInv]; eauto.
Qed.

Lemma runAll_inactive (es : list Event) :
  forall s s',
    isActiveRef s = false -> runAll es s = Ok s' -> isActiveRef s' = false.
Proof.
  induction es as [|e es IH]; intros s s' Hoff Hrun; cbn in Hrun.
  - now injection Hrun as <-.
  - destruct (run e s) as [s1|err] eqn:He; [|discriminate].
    cbn in Hrun. apply (IH s1); [|exact Hrun]. eapply run_inactive; eauto.
Qed.

Lemma runAll_app (es1 es2 : list Event) (s : Hook) :
  runAll (es1 ++ es2)%list s = (s1 <- runAll es1 s ;; runAll es2 s1).
Proof.
  revert s. induction es1 as [|e es1 IH]; intros s; cbn; [reflexivity|].
  destruct (run e s); cbn; auto.
Qed.

Lemma reachable_inv (s : Hook) : reachable s -> playingInv s /\ timerInv s.
Proof.
  intros (v & es & Hrun).
  apply (runAll_inv es (initialHook v)); [apply initialHook_inv | exact Hrun].
Qed.

Lemma reachable_runAll (es : list Event) (s s' : Hook) :
  reachable s -> runAll es s = Ok s' -> reachable s'.
Proof.
  intros (v & es0 & Hrun0) Hrun. exists v, (es0 ++ es)%list.
  rewrite runAll_app, Hrun0. exact Hrun.
Qed.

(** ** The volume is clamped *)

(** C1.  For every real [v], [adjustVolume v] returns, without throwing, a
    value in the closed interval from 0 to 1, equal to [v] when [v] already
    lies there; that value becomes the current volume and, when an audio
    element is referenced, the volume of that element, which is otherwise
    left as it was. *)
Theorem adjustVolume_clamps (v : Q) (s : Hook) :
  exists c s',
    adjustVolume v s = Ok (c, s')
    /\ 0 <= c /\ c <= 1
    /\ (0 <= v -> v <= 1 -> c == v)
    /\ currentVolume s' = c
    /\ (forall a, audioRef s = Some a ->
          exists a', audioRef s' = Some a' /\ volume a' = c
                     /\ setVolume c a = Ok a')
    /\ (audioRef s = None -> audioRef s' = None).
Proof.
  eexists. eexists. split; [apply adjustVolume_ok|].
  destruct (clampVolume_range v) as [Hlo Hhi].
  repeat split; try assumption.
  - apply clampVolume_fixed.
  - intros a Ha. cbn. rewrite Ha. eexists. split; [reflexivity|].
    split; [reflexivity|]. apply setVolume_clamp.
  - intros Ha. cbn. now rewrite Ha.
Qed.

Lemma busyHook_reachable : reachable busyHook.
Proof.
  exists 1, [CallStartRandom pressRender 0.5%float; CallPlay pressRender].
  vm_compute. reflexivity.
Qed.

Lemma adjustVolume_clamps_witness :
  exists c s', adjustVolume (1 # 2) busyHook = Ok (c, s') /\ c == 1 # 2.
Proof.
  destruct (adjustVolume_clamps (1 # 2) busyHook)
    as (c & s' & Hrun & _ & _ & Hfix & _).
  exists c, s'. split; [exact Hrun|]. apply Hfix; lra.
Defined.

(** ** Stopping *)

(** C4.  From every state the hook can be in, two calls of [stop] in
    succession both return without throwing, the second changes nothing, and
    the playing flag is down afterwards.  On a hook whose audio reference is
    already null a call of [stop] changes nothing. *)
Theorem stop_twice (s : Hook) :
  reachable s ->
  exists s1,
    stopSoundEffect s = Ok s1
    /\ stopSoundEffect s1 = Ok s1
    /\ isPlaying s1 = false
    /\ audioRef s1 = None
    /\ (audioRef s = None -> s1 = s).
Proof.
  intros Hreach. destruct (reachable_inv s Hreach) as [Hplay _].
  rewrite stopSoundEffect_ok. eexists. split; [reflexivity|].
  rewrite stopSoundEffect_ok.
  destruct (audioRef s) as [a|] eqn:Ha; cbn.
  - repeat split. discriminate.
  - rewrite Ha. repeat split.
    destruct (isPlaying s) eqn:Hp; [|reflexivity].
    exfalso. now apply Hplay.
Qed.

Lemma stop_twice_witness :
  exists s1,
    stopSoundEffect busyHook = Ok s1
    /\ stopSoundEffect s1 = Ok s1
    /\ isPlaying s1 = false
    /\ audioRef s1 = None
    /\ (audioRef busyHook = None -> s1 = busyHook).
Proof. exact (stop_twice busyHook busyHook_reachable). Defined.

(** ** A rejected playback *)

(** C6.  [play] returns without throwing, with the playing flag up.  When the
    promise of [audio.play()] rejects, whatever happened in between, the
    handler returns without throwing; it logs the error, lowers the playing
    flag and changes nothing else. *)
Theorem playRejected_contained (env : Render) (error : string) (s : Hook) :
  (exists s1, playSoundEffect env s = Ok s1 /\ isPlaying s1 = true)
  /\ (forall s2,
        playRejected error s2 =
        Ok (mkHook (audioRef s2) (intervalRef s2) (isActiveRef s2) false
              (currentVolume s2) (timers s2) (nextTimer s2) (nextAudio s2)
              (console s2 ++ [("Error playing sound effect:", error)]))).
Proof.
  split.
  - destruct (playSoundEffect_ok env s) as (a & Heq & _).
    rewrite Heq. eexists. split; reflexivity.
  - intros s2. reflexivity.
Qed.

(** ** Teardown *)

(** C7.  From every state the hook can be in, the cleanup of the first effect
    returns without throwing and leaves the audio reference null, the playing
    flag down, no timer pending, the interval reference null and the active
    flag down.  Whatever happens afterwards, a timer that fires creates no
    audio element, sets no timer and leaves the audio reference and the
    playing flag as they are: it plays nothing. *)
Theorem cleanup_silences (s : Hook) :
  reachable s ->
  exists s1,
    cleanupEffect s = Ok s1
    /\ audioRef s1 = None /\ isPlaying s1 = false
    /\ timers s1 = [] /\ intervalRef s1 = None
    /\ isActiveRef s1 = false
    /\ forall es s2, runAll es s1 = Ok s2 ->
       forall h r, exists s3,
         fireTimer h r s2 = Ok s3
         /\ audioRef s3 = audioRef s2 /\ isPlaying s3 = isPlaying s2
         /\ nextAudio s3 = nextAudio s2 /\ nextTimer s3 = nextTimer s2
         /\ isActiveRef s3 = false.
Proof.
  intros Hreach. destruct (reachable_inv s Hreach) as [Hplay Htimer].
  unfold cleanupEffect. rewrite stopSoundEffect_ok. cbn [bind].
  eexists. split; [reflexivity|].
  set (stopped := match audioRef s with
                  | Some _ => setIsPlaying false (withAudioRef None s)
                  | None => s
                  end).
  assert (Hst : timerInv stopped).
  { destruct (stopped_frame s) as (Ht & Hi & _).
    now apply (timerInv_frame s). }
  assert (Href : audioRef stopped = None /\ isPlaying stopped = false).
  { subst stopped. destruct (audioRef s) eqn:Ha; cbn; [auto|].
    split; [exact Ha|]. destruct (isPlaying s) eqn:Hp; [|reflexivity].
    exfalso. now apply Hplay. }
  destruct (clearPending_fields stopped) as (Ha & Hp & _).
  cbn [withIsActiveRef audioRef isPlaying timers intervalRef isActiveRef].
  rewrite Ha, Hp. destruct Href as [-> ->].
  split; [reflexivity|]. split; [reflexivity|].
  split; [now apply clearPending_timers|].
  split.
  { unfold clearPending. destruct (intervalRef stopped) eqn:Hi; [reflexivity|].
    exact Hi. }
  split; [reflexivity|].
  intros es s2 Hrun h r.
  assert (Hoff : isActiveRef s2 = false).
  { eapply runAll_inactive; [|exact Hrun]. reflexivity. }
  unfold fireTimer.
  destruct (find _ _) as [t|].
  - rewrite timerCallback_inactive by exact Hoff.
    eexists. split; [reflexivity|]. cbn. auto.
  - eexists. split; [reflexivity|]. auto.
Qed.

Lemma cleanup_silences_witness :
  exists s1 s2 s3,
    cleanupEffect busyHook = Ok s1
    /\ audioRef s1 = None /\ isPlaying s1 = false /\ timers s1 = []
    /\ runAll [CallStartRandom pressRender 0.5%float] s1 = Ok s2
    /\ fireTimer 2 0.5%float s2 = Ok s3
    /\ audioRef s3 = audioRef s2 /\ isPlaying s3 = isPlaying s2.
Proof.
  destruct (cleanup_silences busyHook busyHook_reachable)
    as (s1 & Hrun & Ha & Hp & Ht & _ & _ & Hlater).
  destruct (run_ok (CallStartRandom pressRender 0.5%float) s1) as (s2 & Hs2).
  assert (Hall : runAll [CallStartRandom pressRender 0.5%float] s1 = Ok s2).
  { cbn [runAll]. rewrite Hs2. reflexivity. }
  destruct (Hlater _ s2 Hall 2%nat 0.5%float) as (s3 & Hfire & Ha3 & Hp3 & _).
  exists s1, s2, s3. repeat split; assumption.
Defined.

(** ** Random replay *)

(** ** Random replay *)

(** [Math.floor] on sample doubles: a fraction, a negative fraction, a whole
    number, the negative zero and [NaN]. *)
Lemma floor_samples :
  floor 1.35 = 1%float /\ floor (-0.5) = (-1)%float
  /\ floor 5000.5 = 5000%float /\ floor 0.75 = 0%float
  /\ floor 15000 = 15000%float /\ floor (-0) = (-0)%float
  /\ floor nan = nan /\ floor infinity = infinity.
Proof. repeat split; vm_compute; reflexivity. Qed.

(** With a whole range as the program computes it, the sum can still round
    past [maxInterval]: for the intervals 0.28 and 3.28 the difference is 3
    in double arithmetic, and for a random value 0.9 the delay is
    [3 + 0.28], the double after 3.28. *)
Lemma randomDelay_rounds_past_maxInterval :
  (3.28 - 0.28)%float = 3%float
  /\ randomDelay 0.28 3.28 0.9 = 3.2800000000000002%float
  /\ PrimFloat.ltb 3.28 (randomDelay 0.28 3.28 0.9) = true.
Proof. repeat split; vm_compute; reflexivity. Qed.

(** The product is rounded before [Math.floor] sees it: a third of 3 is 1. *)
Lemma randomDelay_rounds_product :
  randomDelay 0 2 0.3333333333333333 = 1%float.
Proof. vm_compute. reflexivity. Qed.

(** C2.  With [minInterval] 0 and [maxInterval] 0.5, which are in order, and
    [Math.random()] returning 0.9, the delay the scheduler computes is 1,
    beyond [maxInterval]; [startRandom] leaves a timer with that delay
    pending. *)
Theorem randomDelay_exceeds_maxInterval :
  PrimFloat.leb (minInterval halfRender) (maxInterval halfRender) = true
  /\ isRandom 0.9
  /\ randomDelay (minInterval halfRender) (maxInterval halfRender) 0.9
     = 1%float
  /\ PrimFloat.ltb (maxInterval halfRender) 1 = true
  /\ exists s,
       startRandomPlayback halfRender 0.9 (initialHook 1) = Ok s
       /\ timers s = [mkTimer 1 1 halfRender]
       /\ intervalRef s = Some 1%nat.
Proof.
  split; [vm_compute; reflexivity|].
  split; [split; vm_compute; reflexivity|].
  split; [vm_compute; reflexivity|].
  split; [vm_compute; reflexivity|].
  eexists. split; [vm_compute; reflexivity|]. split; reflexivity.
Qed.

(** ** The last message *)

Lemma concerns_iff (uid : string) (m : Message) :
  concerns uid m = true <-> senderId m = uid \/ receiverId m = uid.
Proof.
  unfold concerns. rewrite orb_true_iff, !String.eqb_eq. tauto.
Qed.

Lemma lastMessage_snoc (uid : string) (msgs : list Message) (m : Message) :
  lastMessage uid (msgs ++ [m]) =
  if concerns uid m then Some m else lastMessage uid msgs.
Proof.
  unfold lastMessage, pop. rewrite map_app, filter_app. cbn.
  destruct (concerns uid m); cbn.
  - apply last_last.
  - now rewrite app_nil_r.
Qed.

Lemma lastMessage_refines (uid : string) (msgs : list Message) :
  lastMessage uid msgs = specLastMessage uid msgs.
Proof.
  unfold specLastMessage.
  induction msgs as [|m msgs IH] using rev_ind; [reflexivity|].
  rewrite lastMessage_snoc, rev_app_distr. cbn.
  destruct (concerns uid m); [reflexivity | exact IH].
Qed.

Lemma lastMessage_some (uid : string) (msgs : list Message) (m : Message) :
  lastMessage uid msgs = Some m <->
  exists before after,
    msgs = (before ++ m :: after)%list
    /\ concerns uid m = true
    /\ forall m', In m' after -> concerns uid m' = false.
Proof.
  induction msgs as [|x msgs IH] using rev_ind.
  - split; [discriminate|]. intros (b & a & H & _). now destruct b.
  - rewrite lastMessage_snoc. destruct (concerns uid x) eqn:Hx; split.
    + intros [= ->]. exists msgs, []. repeat split; auto. intros ? [].
    + intros (b & a & Heq & Hm & Hafter).
      destruct a as [|y a] using rev_ind.
      * apply app_inj_tail in Heq. destruct Heq as [_ ->]. reflexivity.
      * clear IHa. rewrite app_comm_cons, app_assoc in Heq.
        apply app_inj_tail in Heq. destruct Heq as [_ ->].
        rewrite Hafter in Hx; [discriminate|].
        apply in_or_app. right. now left.
    + intros H. apply IH in H. destruct H as (b & a & -> & Hm & Hafter).
      exists b, (a ++ [x])%list. rewrite <- app_assoc. repeat split; auto.
      intros m' Hin. apply in_app_or in Hin. destruct Hin as [Hin | [<- | []]]; auto.
    + intros (b & a & Heq & Hm & Hafter). apply IH.
      destruct a as [|y a] using rev_ind.
      * apply app_inj_tail in Heq. destruct Heq as [_ ->]. congruence.
      * clear IHa. rewrite app_comm_cons, app_assoc in Heq.
        apply app_inj_tail in Heq. destruct Heq as [-> ->].
        exists b, a. repeat split; auto.
        intros m' Hin. apply Hafter. apply in_or_app. now left.
Qed.

Lemma lastMessage_none (uid : string) (msgs : list Message) :
  lastMessage uid msgs = None <->
  forall m, In m msgs -> concerns uid m = false.
Proof.
  induction msgs as [|x msgs IH] using rev_ind.
  - split; [intros _ ? [] | reflexivity].
  - rewrite lastMessage_snoc. destruct (concerns uid x) eqn:Hx; split.
    + discriminate.
    + intros H. rewrite H in Hx; [discriminate|]. apply in_or_app. right. now left.
    + intros H m Hin. apply in_app_or in Hin.
      destruct Hin as [Hin | [<- | []]]; [|exact Hx]. now apply IH.
    + intros H. apply IH. intros m Hin. apply H. apply in_or_app. now left.
Qed.

Lemma includes_iff (l : list string) (x : string) :
  includes l x = true <-> In x l.
Proof.
  unfold includes. rewrite existsb_exists. split.
  - intros (y & Hin & Heq). apply String.eqb_eq in Heq. now subst.
  - intros Hin. exists x. split; [exact Hin | apply String.eqb_refl].
Qed.

(** With no message but the user typing, the card shows 'Typing...'. *)
Lemma no_message_but_typing :
  ~ (forall (st : ServerStore) (srv : ServerResponse) (uid : string),
       lastMessage uid (messages st) = None ->
       subtitle st srv uid = "No messages yet.").
Proof.
  intros H.
  specialize (H (mkServerStore (Some room) [] [bob] ["u1"]) room "u1" eq_refl).
  vm_compute in H. discriminate.
Qed.

(** C8, amended.  The last message the card derives is the last element of
    the message list whose sender or receiver is the card's user, and is
    absent exactly when no element is; when it is absent and the user is not
    typing, the card shows 'No messages yet.'. *)
Theorem lastMessage_is_last (uid : string) (msgs : list Message) :
  lastMessage uid msgs = specLastMessage uid msgs
  /\ (forall m,
        lastMessage uid msgs = Some m <->
        exists before after,
          msgs = (before ++ m :: after)%list
          /\ (senderId m = uid \/ receiverId m = uid)
          /\ forall m', In m' after ->
               ~ (senderId m' = uid \/ receiverId m' = uid))
  /\ (lastMessage uid msgs = None <->
      forall m, In m msgs -> ~ (senderId m = uid \/ receiverId m = uid))
  /\ (forall st srv,
        messages st = msgs ->
        lastMessage uid msgs = None ->
        ~ In uid (typingUsers st) ->
        subtitle st srv uid = "No messages yet.").
Proof.
  assert (Hneg : forall m, concerns uid m = false <->
                           ~ (senderId m = uid \/ receiverId m = uid)).
  { intros m. rewrite <- concerns_iff. destruct (concerns uid m); split;
      congruence || auto. }
  split; [apply lastMessage_refines|]. split; [|split].
  - intros m. rewrite lastMessage_some. split.
    + intros (b & a & Heq & Hm & Ha). exists b, a.
      rewrite <- concerns_iff. repeat split; auto.
      intros m' Hin. apply Hneg. auto.
    + intros (b & a & Heq & Hm & Ha). exists b, a.
      rewrite concerns_iff. repeat split; auto.
      intros m' Hin. apply Hneg. auto.
  - rewrite lastMessage_none. split; intros H m Hin; apply Hneg; auto.
  - intros st srv Hmsgs Hnone Htyping. unfold subtitle.
    destruct (includes (typingUsers st) uid) eqn:Hinc.
    + apply includes_iff in Hinc. contradiction.
    + rewrite Hmsgs, Hnone. reflexivity.
Qed.

Lemma lastMessage_is_last_witness :
  lastMessage "u1" [hello; reply; other] = Some reply
  /\ subtitle (mkServerStore (Some room) [other] [bob] []) room "u1"
     = "No messages yet.".
Proof.
  split.
  - apply (lastMessage_is_last "u1" [hello; reply; other]).
    exists [hello], [other]. split; [reflexivity|]. split; [now right|].
    intros m' [<- | []]. intros [H | H]; discriminate.
  - apply (lastMessage_is_last "u1" [other]); [reflexivity | reflexivity |].
    intros [].
Defined.

(** ** Truncation *)

Lemma substring_prefix (n : nat) :
  forall s, (n <= String.length s)%nat ->
  exists rest, s = substring 0 n s ++ rest
               /\ String.length (substring 0 n s) = n.
Proof.
  induction n as [|n IH]; intros s Hlen.
  - exists s. destruct s; split; reflexivity.
  - destruct s as [|c s]; cbn in Hlen; [lia|].
    destruct (IH s) as (rest & Heq & Hl); [lia|].
    exists rest. cbn. split; [now rewrite <- Heq | now rewrite Hl].
Qed.

(** C3.  The card shows a content of more than 20 code units as its first 20
    code units followed by three dots, and a content of at most 20 code units
    verbatim.  That text is what the paragraph holds for the last message of
    a user who is not typing, after 'You: ' when the owner sent it. *)
Theorem displayContent_truncates :
  (forall s, (20 < String.length s)%nat ->
     exists first rest,
       s = first ++ rest /\ String.length first = 20%nat
       /\ displayContent s = first ++ "...")
  /\ (forall s, (String.length s <= 20)%nat -> displayContent s = s)
  /\ (forall st srv uid m,
        ~ In uid (typingUsers st) ->
        lastMessage uid (messages st) = Some m ->
        subtitle st srv uid =
        (if String.eqb (senderId m) (owner srv) then "You: " else "")
        ++ displayContent (content m)).
Proof.
  split; [|split].
  - intros s Hlen. unfold displayContent, slice20.
    apply Nat.ltb_lt in Hlen. rewrite Hlen.
    apply Nat.ltb_lt in Hlen.
    destruct (substring_prefix 20 s) as (rest & Heq & Hl); [lia|].
    exists (substring 0 20 s), rest. auto.
  - intros s Hlen. unfold displayContent.
    apply Nat.ltb_ge in Hlen. now rewrite Hlen.
  - intros st srv uid m Htyping Hlast. unfold subtitle.
    destruct (includes (typingUsers st) uid) eqn:Hinc.
    + apply includes_iff in Hinc. contradiction.
    + now rewrite Hlast.
Qed.

Lemma displayContent_truncates_witness :
  (exists first rest,
     content longMessage = first ++ rest /\ String.length first = 20%nat
     /\ displayContent (content longMessage) = first ++ "...")
  /\ displayContent "hi there" = "hi there"
  /\ subtitle (mkServerStore (Some room) [hello; longMessage] [bob] []) room "u1"
     = "You: The quick brown fox ...".
Proof.
  destruct displayContent_truncates as (Hlong & Hshort & Hsub).
  split; [|split].
  - apply Hlong. cbn. lia.
  - apply Hshort. cbn. lia.
  - apply (Hsub (mkServerStore (Some room) [hello; longMessage] [bob] [])
             room "u1" longMessage).
    + intros [].
    + reflexivity.
Defined.

(** ** Typing *)

(** C9.  Whenever a card is rendered for a user listed in [typingUsers], its
    paragraph is exactly 'Typing...', whatever the messages are.  For a user
    who is not listed it is the text of the last message, after 'You: ' when
    the owner sent it, or 'No messages yet.'. *)
Theorem typing_overrides (toUpperCase : string -> string)
    (st : ServerStore) (user : ServerUser) (v : View) :
  UserCard toUpperCase st user = Ok (Some v) ->
  (In (userId user) (typingUsers st) -> subtitleText v = "Typing...")
  /\ (~ In (userId user) (typingUsers st) ->
      exists srv,
        server st = Some srv
        /\ subtitleText v =
           match lastMessage (userId user) (messages st) with
           | Some m =>
               (if String.eqb (senderId m) (owner srv) then "You: " else "")
               ++ displayContent (content m)
           | None => "No messages yet."
           end).
Proof.
  unfold UserCard. destruct (server st) as [srv|]; [|discriminate].
  destruct (initial toUpperCase (username user)) as [letter|]; [|discriminate].
  cbn [bind]. intros [= <-]. cbn [subtitleText]. unfold subtitle. split.
  - intros Hin. apply includes_iff in Hin. now rewrite Hin.
  - intros Hout. exists srv. split; [reflexivity|].
    destruct (includes (typingUsers st) (userId user)) eqn:Hinc; [|reflexivity].
    apply includes_iff in Hinc. contradiction.
Qed.

Lemma typing_overrides_witness :
  exists v,
    UserCard asciiToUpperCase
      (mkServerStore (Some room) [hello; reply] [bob] ["u1"]) bob = Ok (Some v)
    /\ subtitleText v = "Typing...".
Proof.
  eexists. split; [reflexivity|].
  apply (typing_overrides asciiToUpperCase
           (mkServerStore (Some room) [hello; reply] [bob] ["u1"]) bob).
  - reflexivity.
  - left. reflexivity.
Defined.

(** ** The avatar *)

(** Nothing guards the indexing: an empty name makes the render throw. *)
Lemma initial_empty_throws (toUpperCase : string -> string) (st : ServerStore)
    (user : ServerUser) (srv : ServerResponse) :
  server st = Some srv -> username user = "" ->
  exists msg, UserCard toUpperCase st user = Throw (TypeError msg).
Proof.
  intros Hsrv Hname. unfold UserCard. rewrite Hsrv, Hname. cbn. eauto.
Qed.

(** C10.  For a non-empty [username] the indexing [username[0]] is defined:
    [username[0].toUpperCase()] does not throw and is the upper case of the
    first code unit of [username], and that is the initial a rendered card
    shows. *)
Theorem initial_defined (toUpperCase : string -> string) (name : string) :
  name <> "" ->
  exists c rest,
    name = String c rest
    /\ initial toUpperCase name = Ok (toUpperCase (String c ""))
    /\ forall st user srv,
         server st = Some srv -> username user = name ->
         exists v,
           UserCard toUpperCase st user = Ok (Some v)
           /\ avatarInitial v = toUpperCase (String c "").
Proof.
  intros Hne. destruct name as [|c rest]; [congruence|].
  exists c, rest. split; [reflexivity|]. split; [reflexivity|].
  intros st user srv Hsrv Hname. unfold UserCard. rewrite Hsrv, Hname.
  cbn. eexists. split; reflexivity.
Qed.

Lemma initial_defined_witness :
  exists c rest,
    "bob" = String c rest
    /\ initial asciiToUpperCase "bob" = Ok (asciiToUpperCase (String c "")).
Proof.
  destruct (initial_defined asciiToUpperCase "bob") as (c & rest & Heq & Hinit & _).
  - discriminate.
  - exists c, rest. split; [exact Heq | exact Hinit].
Defined.

(** ** The click *)

(** A click on the card of a user who is not among the active users makes no
    call of [setCurrentlyChatting]. *)
Lemma click_without_active_user :
  ~ (forall pressEnv openEnv st uid c,
       exists c' user,
         handleSetCurrentlyChatting pressEnv openEnv st uid c = Ok c'
         /\ userId user = uid
         /\ chattingCalls c' = (chattingCalls c ++ [user])%list).
Proof.
  intros H.
  destruct (H pressRender pressRender (mkServerStore (Some room) [] [] []) "u1"
              (mkCard (initialHook 1) (initialHook 1) []))
    as (c' & user & Hrun & _ & Hcalls).
  vm_compute in Hrun. injection Hrun as <-. cbn in Hcalls. discriminate.
Qed.

(** C5, amended.  Every click plays the press sound.  When the active users
    hold a user with the card's [userId], the click also plays the open sound
    and calls [setCurrentlyChatting] once, with the first such user; when they
    hold none, it plays no open sound and makes no call on the store.  No
    click throws. *)
Theorem click_sets_currently_chatting (pressEnv openEnv : Render)
    (st : ServerStore) (uid : string) (c : Card) :
  exists press,
    playSoundEffect pressEnv (playPressSound c) = Ok press
    /\ isPlaying press = true
    /\ match find (fun user => String.eqb (userId user) uid) (activeUsers st) with
       | Some user =>
           userId user = uid /\ In user (activeUsers st)
           /\ exists open,
                playSoundEffect openEnv (playOpenSound c) = Ok open
                /\ isPlaying open = true
                /\ handleSetCurrentlyChatting pressEnv openEnv st uid c =
                   Ok (mkCard press open (chattingCalls c ++ [user]))
       | None =>
           (forall user, In user (activeUsers st) -> userId user <> uid)
           /\ handleSetCurrentlyChatting pressEnv openEnv st uid c =
              Ok (mkCard press (playOpenSound c) (chattingCalls c))
       end.
Proof.
  unfold handleSetCurrentlyChatting.
  destruct (playSoundEffect_ok pressEnv (playPressSound c)) as (a & Hpress & _).
  rewrite Hpress. cbn [bind]. eexists. split; [reflexivity|].
  split; [reflexivity|].
  destruct (find _ _) as [user|] eqn:Hfind.
  - apply find_some in Hfind. destruct Hfind as [Hin Heq].
    apply String.eqb_eq in Heq. split; [exact Heq|]. split; [exact Hin|].
    destruct (playSoundEffect_ok openEnv (playOpenSound c)) as (b & Hopen & _).
    rewrite Hopen. cbn [bind]. eexists. split; [reflexivity|].
    split; reflexivity.
  - split; [|reflexivity].
    intros user Hin Heq. apply (find_none _ _ Hfind) in Hin.
    apply String.eqb_neq in Hin. contradiction.
Qed.

Lemma click_sets_currently_chatting_witness :
  exists c',
    handleSetCurrentlyChatting pressRender pressRender
      (mkServerStore (Some room) [] [bob] []) "u1"
      (mkCard (initialHook 1) (initialHook 1) []) = Ok c'
    /\ chattingCalls c' = [bob].
Proof.
  destruct (click_sets_currently_chatting pressRender pressRender
              (mkServerStore (Some room) [] [bob] []) "u1"
              (mkCard (initialHook 1) (initialHook 1) []))
    as (press & _ & _ & Hfound).
  cbn [find activeUsers] in Hfound.
  change (String.eqb (userId bob) "u1") with true in Hfound.
  destruct Hfound as (_ & _ & open & _ & _ & Hrun).
  eexists. split; [exact Hrun | reflexivity].
Defined.

(** * Further properties of the hook *)

(** ** Elements and handles in use *)

Lemma clearPending_intervalRef (s : Hook) : intervalRef (clearPending s) = None.
Proof.
  unfold clearPending. destruct (intervalRef s) eqn:Hi; [reflexivity | exact Hi].
Qed.

Lemma clearPending_subset (s : Hook) (t : Timer) :
  In t (timers (clearPending s)) -> In t (timers s).
Proof.
  unfold clearPending. destruct (intervalRef s); [|auto].
  cbn. intros Hin. now apply filter_In in Hin.
Qed.

Lemma timerCallback_active_audio (env : Render) (r : float) (s : Hook) :
  isActiveRef s = true ->
  exists audio,
    timerCallback env r s =
    Ok (mkHook (Some audio) (Some (nextTimer s)) true true (currentVolume s)
          (timers s
             ++ [mkTimer (nextTimer s)
                   (randomDelay (minInterval env) (maxInterval env) r) env])
          (S (nextTimer s)) (S (nextAudio s)) (console s))
    /\ aid audio = nextAudio s
    /\ volume audio == clampVolume (renderVolume env).
Proof.
  intros Hact. unfold timerCallback. rewrite Hact.
  destruct (playSoundEffect_ok env s) as (a & -> & Hid & _ & Hv).
  exists a. cbn. rewrite Hact. auto.
Qed.

Lemma audioInv_fresh (a : Audio) (s : Hook) (v : Q) :
  audioRef s = Some a -> aid a = pred (nextAudio s) ->
  (0 < nextAudio s)%nat -> volume a == clampVolume v -> audioInv s.
Proof.
  intros Ha Hid Hpos Hv b Hb. rewrite Ha in Hb. injection Hb as <-.
  destruct (clampVolume_range v). rewrite Hv. split; [split; assumption | lia].
Qed.

Lemma audioInv_frame (s s' : Hook) :
  audioRef s' = audioRef s \/ audioRef s' = None ->
  nextAudio s' = nextAudio s ->
  audioInv s -> audioInv s'.
Proof.
  unfold audioInv. intros [Ha | Ha] Hn Hinv a Hs'.
  - rewrite Hn. apply Hinv. congruence.
  - congruence.
Qed.

Lemma playSoundEffect_audioInv (env : Render) (s s' : Hook) :
  playSoundEffect env s = Ok s' -> audioInv s'.
Proof.
  destruct (playSoundEffect_ok env s) as (a & -> & Hid & _ & Hv).
  intros [= <-]. apply (audioInv_fresh a _ (renderVolume env)); cbn; auto; lia.
Qed.

Lemma mountEffect_audioInv (env : Render) (v : Q) (preload autoplay : bool)
    (s s' : Hook) :
  audioInv s -> mountEffect env v preload autoplay s = Ok s' -> audioInv s'.
Proof.
  intros Hinv. unfold mountEffect.
  destruct (audioRef s) as [a|] eqn:Ha.
  - rewrite Ha, setVolume_clamp. cbn [bind].
    destruct autoplay; [apply playSoundEffect_audioInv|].
    intros [= <-]. intros b Hb. cbn in Hb. injection Hb as <-. cbn.
    destruct (clampVolume_range v). destruct (Hinv a Ha) as [_ Hid]. auto.
  - destruct preload; cbn [allocAudio withAudioRef audioRef].
    + rewrite setVolume_clamp. cbn [bind].
      destruct autoplay; [apply playSoundEffect_audioInv|].
      intros [= <-]. intros b Hb. cbn in Hb. injection Hb as <-. cbn.
      destruct (clampVolume_range v). auto.
    + rewrite Ha. cbn [bind].
      destruct autoplay; [apply playSoundEffect_audioInv|].
      now intros [= <-].
Qed.

Lemma run_audioInv (e : Event) (s s' : Hook) :
  audioInv s -> run e s = Ok s' -> audioInv s'.
Proof.
  intros Hinv Hrun.
  destruct e; cbn [run] in Hrun.
  - eapply playSoundEffect_audioInv; eauto.
  - rewrite stopSoundEffect_ok in Hrun. injection Hrun as <-.
    destruct (audioRef s) eqn:Ha; [|exact Hinv]. intros b Hb. discriminate.
  - rewrite startRandomPlayback_ok in Hrun. injection Hrun as <-.
    apply (audioInv_frame s); auto.
  - rewrite adjustVolume_ok in Hrun. cbn in Hrun. injection Hrun as <-.
    intros b Hb. cbn in Hb |- *.
    destruct (audioRef s) as [a|] eqn:Ha; [|discriminate].
    injection Hb as <-. cbn. destruct (clampVolume_range v).
    destruct (Hinv a Ha) as [_ Hid]. auto.
  - unfold fireTimer in Hrun.
    destruct (find _ _) as [t|]; [|injection Hrun as <-; exact Hinv].
    destruct (isActiveRef (clearInterval h s)) eqn:Hact.
    + destruct (timerCallback_active_audio (closure t) r _ Hact)
        as (a & Heq & Hid & Hv).
      rewrite Heq in Hrun. injection Hrun as <-.
      apply (audioInv_fresh a _ (renderVolume (closure t))); cbn; auto; lia.
    + rewrite timerCallback_inactive in Hrun by exact Hact.
      injection Hrun as <-. apply (audioInv_frame s); auto.
  - unfold audioEnded in Hrun.
    destruct (audioRef s) as [cur|] eqn:Ha;
      [destruct (Nat.eqb (aid cur) a)|]; injection Hrun as <-;
      try exact Hinv.
    apply (audioInv_frame s); auto.
  - unfold playRejected in Hrun. injection Hrun as <-.
    apply (audioInv_frame s); auto.
  - unfold audioProgress in Hrun.
    destruct (audioRef s) as [cur|] eqn:Ha;
      [destruct (paused cur)|]; injection Hrun as <-; try exact Hinv.
    intros b Hb. cbn in Hb. injection Hb as <-. cbn. now apply Hinv.
  - eapply mountEffect_audioInv; eauto.
  - unfold cleanupEffect in Hrun. rewrite stopSoundEffect_ok in Hrun.
    cbn in Hrun. injection Hrun as <-. intros b Hb. cbn in Hb.
    destruct (clearPending_fields
                (match audioRef s with
                 | Some _ => setIsPlaying false (withAudioRef None s)
                 | None => s
                 end)) as (Ha & _ & _ & _ & Hn & _).
    rewrite Ha in Hb. cbn. rewrite Hn.
    destruct (audioRef s) eqn:Hs; cbn in Hb |- *; [discriminate|].
    apply Hinv. congruence.
  - unfold randomEffect in Hrun.
    destruct (playRandomly && isActiveRef s).
    + rewrite startRandomPlayback_ok in Hrun. injection Hrun as <-.
      apply (audioInv_frame s); auto.
    + destruct (negb playRandomly); injection Hrun as <-; [|exact Hinv].
      destruct (clearPending_fields s) as (Ha & _ & _ & _ & Hn & _).
      apply (audioInv_frame s); auto.
  - unfold randomCleanup in Hrun. injection Hrun as <-.
    destruct (clearPending_fields s) as (Ha & _ & _ & _ & Hn & _).
    apply (audioInv_frame s); auto.
Qed.

Lemma handleInv_frame (s s' : Hook) :
  (forall t, In t (timers s') -> In t (timers s)) ->
  intervalRef s' = intervalRef s \/ intervalRef s' = None ->
  nextTimer s' = nextTimer s ->
  handleInv s -> handleInv s'.
Proof.
  unfold handleInv. intros Hsub Hi Hn [Ht Hh]. rewrite Hn. split.
  - intros t Hin. auto.
  - intros h Hs'. destruct Hi as [Hi | Hi]; [apply Hh|]; congruence.
Qed.

Lemma handleInv_scheduled (s s' : Hook) (d : float) (env : Render) (l : list Timer) :
  (forall t, In t l -> In t (timers s)) ->
  timers s' = (l ++ [mkTimer (nextTimer s) d env])%list ->
  intervalRef s' = Some (nextTimer s) ->
  nextTimer s' = S (nextTimer s) ->
  handleInv s -> handleInv s'.
Proof.
  unfold handleInv. intros Hsub Ht Hi Hn [Hold _]. rewrite Ht, Hi, Hn. split.
  - intros t Hin. apply in_app_or in Hin. destruct Hin as [Hin | [<- | []]].
    + apply Hsub, Hold in Hin. lia.
    + cbn. lia.
  - intros h [= <-]. lia.
Qed.

Lemma clearInterval_subset (h : nat) (s : Hook) (t : Timer) :
  In t (timers (clearInterval h s)) -> In t (timers s).
Proof. cbn. intros Hin. now apply filter_In in Hin. Qed.

Lemma run_handleInv (e : Event) (s s' : Hook) :
  handleInv s -> run e s = Ok s' -> handleInv s'.
Proof.
  intros Hinv Hrun.
  destruct e; cbn [run] in Hrun.
  - destruct (playSoundEffect_ok env s) as (a & Heq & _).
    rewrite Heq in Hrun. injection Hrun as <-.
    apply (handleInv_frame s); auto.
  - rewrite stopSoundEffect_ok in Hrun. injection Hrun as <-.
    destruct (stopped_frame s) as (Ht & Hi & _ & Hn & _).
    apply (handleInv_frame s); auto. now rewrite Ht.
  - rewrite startRandomPlayback_ok in Hrun. injection Hrun as <-.
    eapply (handleInv_scheduled s); try reflexivity; [|exact Hinv].
    apply clearPending_subset.
  - rewrite adjustVolume_ok in Hrun. cbn in Hrun. injection Hrun as <-.
    apply (handleInv_frame s); auto.
  - unfold fireTimer in Hrun.
    destruct (find _ _) as [t|]; [|injection Hrun as <-; exact Hinv].
    destruct (isActiveRef (clearInterval h s)) eqn:Hact.
    + destruct (timerCallback_active (closure t) r _ Hact) as (a & Heq & _).
      rewrite Heq in Hrun. injection Hrun as <-.
      eapply (handleInv_scheduled s); try reflexivity; [|exact Hinv].
      apply clearInterval_subset.
    + rewrite timerCallback_inactive in Hrun by exact Hact.
      injection Hrun as <-.
      apply (handleInv_frame s); auto. apply clearInterval_subset.
  - unfold audioEnded in Hrun.
    destruct (audioRef s) as [cur|]; [destruct (Nat.eqb (aid cur) a)|];
      injection Hrun as <-; apply (handleInv_frame s); auto.
  - unfold playRejected in Hrun. injection Hrun as <-.
    apply (handleInv_frame s); auto.
  - unfold audioProgress in Hrun.
    destruct (audioRef s) as [cur|]; [destruct (paused cur)|];
      injection Hrun as <-; apply (handleInv_frame s); auto.
  - apply mountEffect_frame in Hrun. destruct Hrun as (Ht & Hi & _ & Hn & _).
    apply (handleInv_frame s); auto. now rewrite Ht.
  - unfold cleanupEffect in Hrun. rewrite stopSoundEffect_ok in Hrun.
    cbn in Hrun. injection Hrun as <-.
    destruct (stopped_frame s) as (Ht & Hi & _ & Hn & _).
    apply (handleInv_frame s); cbn [timers intervalRef nextTimer withIsActiveRef].
    + intros t Hin. apply clearPending_subset in Hin. now rewrite Ht in Hin.
    + right. apply clearPending_intervalRef.
    + destruct (clearPending_fields
                  (match audioRef s with
                   | Some _ => setIsPlaying false (withAudioRef None s)
                   | None => s
                   end)) as (_ & _ & _ & Hn' & _).
      now rewrite Hn'.
    + exact Hinv.
  - unfold randomEffect in Hrun.
    destruct (playRandomly && isActiveRef s).
    + rewrite startRandomPlayback_ok in Hrun. injection Hrun as <-.
      eapply (handleInv_scheduled s); try reflexivity; [|exact Hinv].
      apply clearPending_subset.
    + destruct (negb playRandomly); injection Hrun as <-; [|exact Hinv].
      destruct (clearPending_fields s) as (_ & _ & _ & Hn & _).
      apply (handleInv_frame s); auto using clearPending_subset.
      right. apply clearPending_intervalRef.
  - unfold randomCleanup in Hrun. injection Hrun as <-.
    destruct (clearPending_fields s) as (_ & _ & _ & Hn & _).
    apply (handleInv_frame s); auto using clearPending_subset.
    right. apply clearPending_intervalRef.
Qed.

Lemma runAll_more_inv (es : list Event) :
  forall s s',
    audioInv s /\ handleInv s -> runAll es s = Ok s' ->
    audioInv s' /\ handleInv s'.
Proof.
  induction es as [|e es IH]; intros s s' Hinv Hrun; cbn in Hrun.
  - now injection Hrun as <-.
  - destruct (run e s) as [s1|err] eqn:He; [|discriminate].
    cbn in Hrun. apply (IH s1); [|exact Hrun].
    destruct Hinv. split; [eapply run_audioInv | eapply run_handleInv]; eauto.
Qed.

Lemma reachable_more_inv (s : Hook) : reachable s -> audioInv s /\ handleInv s.
Proof.
  intros (v & es & Hrun).
  apply (runAll_more_inv es (initialHook v)); [|exact Hrun].
  split; [intros a Ha; discriminate|].
  split; [intros t [] | intros h Hh; discriminate].
Qed.

Lemma fireTimer_active (t : Timer) (r : float) (s : Hook) :
  timerInv s -> In t (timers s) -> isActiveRef s = true ->
  exists audio,
    fireTimer (handle t) r s =
    Ok (mkHook (Some audio) (Some (nextTimer s)) true true (currentVolume s)
          [mkTimer (nextTimer s)
             (randomDelay (minInterval (closure t)) (maxInterval (closure t)) r)
             (closure t)]
          (S (nextTimer s)) (S (nextAudio s)) (console s))
    /\ aid audio = nextAudio s
    /\ volume audio == clampVolume (renderVolume (closure t)).
Proof.
  intros Htimer Hin Hact.
  assert (Hfind : find (fun t' => Nat.eqb (handle t') (handle t)) (timers s)
                  = Some t).
  { destruct Htimer as [Hnil | (t' & Ht' & _)].
    - rewrite Hnil in Hin. contradiction.
    - rewrite Ht' in Hin |- *. destruct Hin as [-> | []].
      cbn. now rewrite Nat.eqb_refl. }
  destruct (fireTimer_pending (handle t) r s Htimer t Hfind) as (_ & _ & _ & Hnil).
  unfold fireTimer. rewrite Hfind.
  destruct (timerCallback_active_audio (closure t) r (clearInterval (handle t) s))
    as (a & Heq & Hid & Hv); [exact Hact|].
  exists a. rewrite Heq.
  cbn [clearInterval withTimers timers] in Hnil |- *. rewrite Hnil.
  cbn. auto.
Qed.

Lemma runAll_ok (es : list Event) : forall s, exists s', runAll es s = Ok s'.
Proof.
  induction es as [|e es IH]; intros s; cbn; [eauto|].
  destruct (run_ok e s) as (s1 & ->). cbn. apply IH.
Qed.

(** ** What the hook never does *)

(** X1.  As long as the volumes handed to the hook are real numbers, as the
    volumes of the model are and [NaN] is not, nothing throws, whatever is
    called on the hook and whatever the browser and React deliver to it, in
    any order and from any state: every volume assigned to an audio element
    was clamped first and every dereference of a reference is guarded. *)
Theorem hook_never_throws (es : list Event) (s : Hook) :
  exists s', runAll es s = Ok s' /\ (reachable s -> reachable s').
Proof.
  destruct (runAll_ok es s) as (s' & Hrun). exists s'. split; [exact Hrun|].
  intros Hreach. eapply reachable_runAll; eauto.
Qed.

Lemma hook_never_throws_witness :
  exists s',
    runAll [CallAdjustVolume 7; CallPlay pressRender; EffectCleanup] busyHook
    = Ok s' /\ reachable s'.
Proof.
  destruct (hook_never_throws
              [CallAdjustVolume 7; CallPlay pressRender; EffectCleanup] busyHook)
    as (s' & Hrun & Hreach).
  exists s'. split; [exact Hrun | exact (Hreach busyHook_reachable)].
Defined.

(** X2.  In every state the hook can be in, the referenced audio element has
    a volume between 0 and 1, whatever volumes the options, the settings and
    [adjustVolume] were given. *)
Theorem referenced_volume_in_range (s : Hook) (a : Audio) :
  reachable s -> audioRef s = Some a -> 0 <= volume a /\ volume a <= 1.
Proof.
  intros Hreach Ha. destruct (reachable_more_inv s Hreach) as [Haudio _].
  now apply Haudio.
Qed.

Lemma referenced_volume_in_range_witness :
  0 <= volume (mkAudio 0 "/audio/press.mp3" 1 false false false 0 true)
  /\ volume (mkAudio 0 "/audio/press.mp3" 1 false false false 0 true) <= 1.
Proof.
  apply (referenced_volume_in_range busyHook);
    [exact busyHook_reachable | reflexivity].
Defined.

(** ** Playing and ending *)

(** X3.  [play] references a new element for the render's URL that is
    playing, loops as the render asks and carries the ['ended'] listener
    exactly when it does not loop.  When that listener runs for the element
    it belongs to, the hook is back to stopped: the reference is null and the
    playing flag down, and the timers are as before the play. *)
Theorem play_then_ended (env : Render) (s : Hook) :
  exists s1 a,
    playSoundEffect env s = Ok s1
    /\ audioRef s1 = Some a
    /\ src a = soundUrl env /\ paused a = false
    /\ loop a = renderLoop env
    /\ endedListener a = negb (renderLoop env)
    /\ audioEnded (aid a) s1 =
       Ok (mkHook None (intervalRef s) (isActiveRef s) false (currentVolume s)
             (timers s) (nextTimer s) (S (nextAudio s)) (console s)).
Proof.
  unfold playSoundEffect.
  destruct (audioRef s) as [old|]; cbn [allocAudio withAudioRef nextAudio];
    rewrite setVolume_clamp; cbn [bind];
    eexists; eexists; (split; [reflexivity|]); (split; [reflexivity|]);
    unfold audioEnded; destruct (renderLoop env); cbn;
    rewrite Nat.eqb_refl; repeat split; reflexivity.
Qed.

(** X4.  The ['ended'] listener of an element that [play] has meanwhile
    replaced does nothing: the new element stays referenced and the playing
    flag stays up. *)
Theorem stale_ended_ignored (env : Render) (s : Hook) (old : Audio) :
  reachable s -> audioRef s = Some old ->
  exists s1,
    playSoundEffect env s = Ok s1
    /\ audioEnded (aid old) s1 = Ok s1
    /\ isPlaying s1 = true.
Proof.
  intros Hreach Hold.
  destruct (reachable_more_inv s Hreach) as [Haudio _].
  destruct (Haudio old Hold) as [_ Hid].
  destruct (playSoundEffect_ok env s) as (a & Heq & Hnew & _).
  rewrite Heq. eexists. split; [reflexivity|]. split; [|reflexivity].
  unfold audioEnded. cbn [audioRef].
  destruct (Nat.eqb (aid a) (aid old)) eqn:E; [|reflexivity].
  apply Nat.eqb_eq in E. lia.
Qed.

Lemma stale_ended_ignored_witness :
  exists s1,
    playSoundEffect pressRender busyHook = Ok s1
    /\ audioEnded 0 s1 = Ok s1
    /\ isPlaying s1 = true.
Proof.
  exact (stale_ended_ignored pressRender busyHook
           (mkAudio 0 "/audio/press.mp3" 1 false false false 0 true)
           busyHook_reachable eq_refl).
Defined.

(** ** Adjusting the volume *)

(** X5.  Of two calls of [adjustVolume] in succession only the second
    counts: the result and the state are those of the second call alone. *)
Theorem adjustVolume_last_wins (v w : Q) (s : Hook) :
  exists c s1,
    adjustVolume v s = Ok (c, s1)
    /\ adjustVolume w s1 = adjustVolume w s.
Proof.
  rewrite adjustVolume_ok. eexists. eexists. split; [reflexivity|].
  rewrite !adjustVolume_ok. cbn. destruct (audioRef s); reflexivity.
Qed.

(** X6.  After [adjustVolume v], a [play] from a render that saw the new
    state plays its element at the clamped [v]. *)
Theorem adjustVolume_then_play (v : Q) (s : Hook) (url : string)
    (loops : bool) (lo hi : float) :
  exists c s1 s2 a,
    adjustVolume v s = Ok (c, s1)
    /\ playSoundEffect (freshRender url loops lo hi s1) s1 = Ok s2
    /\ audioRef s2 = Some a
    /\ volume a == c /\ 0 <= c /\ c <= 1
    /\ (0 <= v -> v <= 1 -> volume a == v).
Proof.
  destruct (adjustVolume v s) as [[c s1]|] eqn:Hadj;
    rewrite adjustVolume_ok in Hadj; [|discriminate].
  injection Hadj as Hc1 Hs1.
  destruct (playSoundEffect_ok (freshRender url loops lo hi s1) s1)
    as (a & Heq & _ & _ & Hv).
  exists c, s1. rewrite Heq. eexists. exists a. split; [reflexivity|].
  split; [reflexivity|]. split; [reflexivity|].
  subst c. rewrite <- Hs1 in Hv. cbn in Hv.
  destruct (clampVolume_range v) as [Hlo Hhi].
  assert (Hc : volume a == clampVolume v).
  { rewrite Hv. now apply clampVolume_fixed. }
  repeat split; try assumption.
  intros H0 H1. rewrite Hc. now apply clampVolume_fixed.
Qed.

Lemma adjustVolume_then_play_witness :
  exists c s1 s2 a,
    adjustVolume (1 # 4) busyHook = Ok (c, s1)
    /\ playSoundEffect (freshRender "/audio/press.mp3" false 5000 15000 s1) s1
       = Ok s2
    /\ audioRef s2 = Some a /\ volume a == 1 # 4.
Proof.
  destruct (adjustVolume_then_play (1 # 4) busyHook "/audio/press.mp3" false
              5000 15000)
    as (c & s1 & s2 & a & Hadj & Hplay & Ha & _ & _ & _ & Hv).
  exists c, s1, s2, a. repeat split; try assumption. apply Hv; lra.
Defined.

(** X7.  A replay that is already scheduled keeps the volume of the render
    that scheduled it: when its timer fires after [adjustVolume], the element
    it plays has the clamped volume that render saw, not the adjusted one. *)
Theorem replay_keeps_scheduled_volume (v : Q) (r : float) (s : Hook) (t : Timer) :
  reachable s -> In t (timers s) -> isActiveRef s = true ->
  exists c s1 s2 a,
    adjustVolume v s = Ok (c, s1)
    /\ fireTimer (handle t) r s1 = Ok s2
    /\ audioRef s2 = Some a
    /\ volume a == clampVolume (renderVolume (closure t))
    /\ currentVolume s2 = clampVolume v.
Proof.
  intros Hreach Hin Hact.
  destruct (reachable_inv s Hreach) as [_ Htimer].
  destruct (adjustVolume v s) as [[c s1]|] eqn:Hadj;
    rewrite adjustVolume_ok in Hadj; [|discriminate].
  injection Hadj as Hc1 Hs1.
  destruct (fireTimer_active t r s1) as (a & Heq & _ & Hv).
  - rewrite <- Hs1. exact Htimer.
  - rewrite <- Hs1. exact Hin.
  - rewrite <- Hs1. exact Hact.
  - exists c, s1. rewrite Heq. eexists. exists a. repeat split; try reflexivity.
    + exact Hv.
    + rewrite <- Hs1. reflexivity.
Qed.

Lemma replay_keeps_scheduled_volume_witness :
  exists c s1 s2 a,
    adjustVolume 0 busyHook = Ok (c, s1)
    /\ fireTimer 1 0.5%float s1 = Ok s2
    /\ audioRef s2 = Some a
    /\ volume a == 1
    /\ currentVolume s2 = clampVolume 0.
Proof.
  destruct (replay_keeps_scheduled_volume 0 0.5%float busyHook
              (mkTimer 1 10000 pressRender) busyHook_reachable)
    as (c & s1 & s2 & a & H); [left; reflexivity | reflexivity |].
  exists c, s1, s2, a. exact H.
Defined.

(** ** Timers *)

(** X8.  [startRandom] on a hook that already has a replay scheduled cancels
    it: the earlier handle is no longer pending, so when the event loop comes
    to it nothing happens, and only the new timer remains. *)
Theorem startRandom_cancels_previous (env : Render) (r r' : float) (s : Hook)
    (h : nat) :
  reachable s -> intervalRef s = Some h ->
  exists s1,
    startRandomPlayback env r s = Ok s1
    /\ intervalRef s1 = Some (nextTimer s)
    /\ nextTimer s <> h
    /\ (forall t, In t (timers s1) -> handle t <> h)
    /\ fireTimer h r' s1 = Ok s1.
Proof.
  intros Hreach Hh.
  destruct (reachable_inv s Hreach) as [_ Htimer].
  destruct (reachable_more_inv s Hreach) as [_ [_ Hlt]].
  specialize (Hlt h Hh).
  rewrite startRandomPlayback_ok. eexists. split; [reflexivity|].
  cbn [intervalRef timers]. rewrite clearPending_timers by exact Htimer.
  split; [reflexivity|]. split; [lia|]. split.
  - intros t [<- | []]. cbn. lia.
  - unfold fireTimer. cbn.
    destruct (Nat.eqb (nextTimer s) h) eqn:E; [|reflexivity].
    apply Nat.eqb_eq in E. lia.
Qed.

Lemma startRandom_cancels_previous_witness :
  exists s1,
    startRandomPlayback pressRender 0.25%float busyHook = Ok s1
    /\ intervalRef s1 = Some 2%nat
    /\ fireTimer 1 0.5%float s1 = Ok s1.
Proof.
  destruct (startRandom_cancels_previous pressRender 0.25%float 0.5%float busyHook 1
              busyHook_reachable eq_refl)
    as (s1 & Hrun & Hi & _ & _ & Hfire).
  exists s1. auto.
Defined.

(** X9.  [stop] does not cancel a scheduled replay: the timer stays pending,
    and when it fires on a hook that is still active the sound plays again
    and the next replay is scheduled. *)
Theorem stop_keeps_replay (r : float) (s : Hook) (t : Timer) :
  reachable s -> In t (timers s) -> isActiveRef s = true ->
  exists s1 s2,
    stopSoundEffect s = Ok s1
    /\ timers s1 = timers s /\ isPlaying s1 = false
    /\ fireTimer (handle t) r s1 = Ok s2
    /\ isPlaying s2 = true /\ audioRef s2 <> None
    /\ intervalRef s2 = Some (nextTimer s).
Proof.
  intros Hreach Hin Hact.
  destruct (reachable_inv s Hreach) as [Hplay Htimer].
  rewrite stopSoundEffect_ok.
  destruct (stopped_frame s) as (Ht & Hi & Ha & Hn & _).
  set (s1 := match audioRef s with
             | Some _ => setIsPlaying false (withAudioRef None s)
             | None => s
             end) in *.
  assert (Hstopped : isPlaying s1 = false).
  { subst s1. destruct (audioRef s) eqn:Hs; [reflexivity|].
    destruct (isPlaying s) eqn:Hp; [|reflexivity]. exfalso. now apply Hplay. }
  destruct (fireTimer_active t r s1) as (a & Heq & _).
  - now apply (timerInv_frame s).
  - now rewrite Ht.
  - now rewrite Ha.
  - exists s1. rewrite Heq. eexists. split; [reflexivity|].
    split; [exact Ht|]. split; [exact Hstopped|]. split; [reflexivity|].
    cbn. rewrite Hn. repeat split. discriminate.
Qed.

Lemma stop_keeps_replay_witness :
  exists s1 s2,
    stopSoundEffect busyHook = Ok s1
    /\ isPlaying s1 = false
    /\ fireTimer 1 0.5%float s1 = Ok s2
    /\ isPlaying s2 = true.
Proof.
  destruct (stop_keeps_replay 0.5%float busyHook (mkTimer 1 10000 pressRender)
              busyHook_reachable)
    as (s1 & s2 & Hstop & _ & Hp & Hfire & Hp2 & _);
    [left; reflexivity | reflexivity |].
  exists s1, s2. auto.
Defined.

(** X10.  When the second effect runs with [playRandomly] off, no replay
    stays scheduled: no timer is pending and the interval reference is null;
    the audio and the playing flag are untouched. *)
Theorem randomEffect_off_clears (env : Render) (r : float) (s : Hook) :
  reachable s ->
  exists s1,
    randomEffect env false r s = Ok s1
    /\ timers s1 = [] /\ intervalRef s1 = None
    /\ audioRef s1 = audioRef s /\ isPlaying s1 = isPlaying s.
Proof.
  intros Hreach. destruct (reachable_inv s Hreach) as [_ Htimer].
  unfold randomEffect. cbn. eexists. split; [reflexivity|].
  destruct (clearPending_fields s) as (Ha & Hp & _).
  split; [now apply clearPending_timers|].
  split; [apply clearPending_intervalRef|]. auto.
Qed.

Lemma randomEffect_off_clears_witness :
  exists s1,
    randomEffect pressRender false 0.5%float busyHook = Ok s1
    /\ timers s1 = [] /\ intervalRef s1 = None.
Proof.
  destruct (randomEffect_off_clears pressRender 0.5%float busyHook
              busyHook_reachable) as (s1 & Hrun & Ht & Hi & _).
  exists s1. auto.
Defined.

(** X11.  Once the cleanup of the first effect has run, whether for an
    unmount or because one of its dependencies changed, the second effect
    can no longer start random playback: run with [playRandomly] on, it
    changes nothing, whatever happened in between. *)
Theorem random_effect_dead_after_cleanup (env : Render) (r : float) (s : Hook) :
  reachable s ->
  exists s1,
    cleanupEffect s = Ok s1
    /\ forall es s2, runAll es s1 = Ok s2 ->
       randomEffect env true r s2 = Ok s2.
Proof.
  intros Hreach.
  destruct (run_ok EffectCleanup s) as (s1 & Hrun). cbn [run] in Hrun.
  exists s1. split; [exact Hrun|].
  intros es s2 Hlater.
  assert (Hoff : isActiveRef s2 = false).
  { eapply runAll_inactive; [|exact Hlater].
    unfold cleanupEffect in Hrun. rewrite stopSoundEffect_ok in Hrun.
    cbn in Hrun. now injection Hrun as <-. }
  unfold randomEffect. rewrite Hoff. reflexivity.
Qed.

Lemma random_effect_dead_after_cleanup_witness :
  exists s1 s2,
    cleanupEffect busyHook = Ok s1
    /\ runAll [EffectRuns pressRender 1 true false] s1 = Ok s2
    /\ randomEffect pressRender true 0.5%float s2 = Ok s2.
Proof.
  destruct (random_effect_dead_after_cleanup pressRender 0.5%float busyHook
              busyHook_reachable) as (s1 & Hrun & Hlater).
  destruct (runAll_ok [EffectRuns pressRender 1 true false] s1) as (s2 & Hs2).
  exists s1, s2. split; [exact Hrun|]. split; [exact Hs2|].
  exact (Hlater _ s2 Hs2).
Defined.

(** X12.  The two cleanups of an unmount leave what the first alone leaves:
    after the cleanup of the first effect the cleanup of the second finds
    nothing to clear. *)
Theorem unmount_is_cleanup (s : Hook) :
  exists s1,
    cleanupEffect s = Ok s1 /\ unmount s = Ok s1 /\ randomCleanup s1 = Ok s1.
Proof.
  unfold unmount, cleanupEffect. rewrite stopSoundEffect_ok. cbn [bind].
  eexists. split; [reflexivity|].
  assert (H : forall x, randomCleanup (withIsActiveRef false (clearPending x))
                        = Ok (withIsActiveRef false (clearPending x))).
  { intros x. unfold randomCleanup, clearPending at 1.
    cbn [withIsActiveRef intervalRef]. now rewrite clearPending_intervalRef. }
  split; apply H.
Qed.

(** ** Mounting *)

Lemma randomEffect_fields (env : Render) (playRandomly : bool) (r : float)
    (s : Hook) :
  exists s',
    randomEffect env playRandomly r s = Ok s'
    /\ audioRef s' = audioRef s /\ isPlaying s' = isPlaying s
    /\ currentVolume s' = currentVolume s /\ isActiveRef s' = isActiveRef s
    /\ nextAudio s' = nextAudio s.
Proof.
  unfold randomEffect. destruct (playRandomly && isActiveRef s).
  - rewrite startRandomPlayback_ok. eexists. split; [reflexivity|]. cbn. auto.
  - destruct (clearPending_fields s) as (Ha & Hp & Hact & _ & Hn & Hv & _).
    destruct (negb playRandomly); eexists; (split; [reflexivity|]); auto 6.
Qed.

Lemma mount_reachable {Key : Type} (url : string)
    (settings : Key -> option SoundSetting) (options : Options.t Key) (r : float)
    (s : Hook) :
  mount url settings options r = Ok s -> reachable s.
Proof.
  intros Hmount. exists (storeVolume settings options).
  exists [EffectRuns (firstRender url settings options)
            (mutedVolume settings options)
            (orDefault (Options.preload options) true)
            (orDefault (Options.autoplay options) false);
          RandomEffectRuns (firstRender url settings options)
            (orDefault (Options.playRandomly options) false) r].
  unfold mount in Hmount. cbn [runAll run].
  destruct (mountEffect _ _ _ _ _) as [s1|]; [|discriminate].
  cbn [bind] in Hmount |- *. rewrite Hmount. reflexivity.
Qed.

(** X13.  Unless [preload] was switched off or [autoplay] on, mounting the
    hook with real volumes gives a hook that references one element for the
    URL, paused, with [preload] set to auto and the clamped muted-or-store
    volume; nothing plays, the hook is active and its current volume is the
    store volume.  A replay is scheduled exactly when [playRandomly] is on,
    with the delay line 109 computes from the intervals or their defaults. *)
Theorem mount_preloads {Key : Type} (url : string)
    (settings : Key -> option SoundSetting) (options : Options.t Key) (r : float) :
  Options.preload options <> Some false ->
  Options.autoplay options <> Some true ->
  exists s a,
    mount url settings options r = Ok s
    /\ reachable s
    /\ audioRef s = Some a
    /\ src a = url /\ paused a = true /\ preloadAuto a = true
    /\ volume a = clampVolume (mutedVolume settings options)
    /\ isPlaying s = false /\ isActiveRef s = true
    /\ currentVolume s = storeVolume settings options
    /\ timers s =
       if orDefault (Options.playRandomly options) false
       then [mkTimer 1
               (randomDelay (orDefault (Options.minInterval options) 5000%float)
                  (orDefault (Options.maxInterval options) 15000%float) r)
               (firstRender url settings options)]
       else [].
Proof.
  intros Hpre Hauto.
  assert (Hp : orDefault (Options.preload options) true = true).
  { destruct (Options.preload options) as [[|]|]; cbn; congruence. }
  assert (Ha : orDefault (Options.autoplay options) false = false).
  { destruct (Options.autoplay options) as [[|]|]; cbn; congruence. }
  destruct (mount url settings options r) as [s|] eqn:Hmount.
  - pose proof (mount_reachable _ _ _ _ _ Hmount) as Hreach.
    revert Hmount. unfold mount. rewrite Hp, Ha.
    unfold mountEffect.
    cbn [initialHook audioRef allocAudio withAudioRef nextAudio].
    rewrite setVolume_clamp. cbn [bind].
    unfold randomEffect. cbn [isActiveRef withAudioRef].
    destruct (orDefault (Options.playRandomly options) false); cbn.
    + intros [= <-]. eexists. eexists. split; [reflexivity|].
      split; [exact Hreach|]. cbn. repeat split.
    + intros [= <-]. eexists. eexists. split; [reflexivity|].
      split; [exact Hreach|]. cbn. repeat split.
  - exfalso. revert Hmount. unfold mount.
    destruct (mountEffect_ok (firstRender url settings options)
                (mutedVolume settings options)
                (orDefault (Options.preload options) true)
                (orDefault (Options.autoplay options) false)
                (initialHook (storeVolume settings options))) as (s1 & ->).
    cbn [bind].
    destruct (randomEffect_fields (firstRender url settings options)
                (orDefault (Options.playRandomly options) false) r s1)
      as (s' & -> & _). discriminate.
Qed.

Lemma mount_preloads_witness :
  exists s a,
    mount "/audio/press.mp3" sampleStore buttonOptions 0.5%float = Ok s
    /\ audioRef s = Some a
    /\ volume a = clampVolume 0
    /\ currentVolume s = 1 # 2
    /\ timers s = [].
Proof.
  destruct (mount_preloads "/audio/press.mp3" sampleStore buttonOptions 0.5%float)
    as (s & a & Hm & _ & Ha & _ & _ & _ & Hv & _ & _ & Hc & Ht);
    [discriminate | discriminate |].
  exists s, a. auto.
Defined.

Lemma mountEffect_currentVolume (env : Render) (v : Q)
    (preload autoplay : bool) (s s' : Hook) :
  mountEffect env v preload autoplay s = Ok s' ->
  currentVolume s' = currentVolume s.
Proof.
  unfold mountEffect.
  destruct (audioRef s) as [a|] eqn:Ha.
  - rewrite Ha, setVolume_clamp. cbn [bind].
    destruct autoplay.
    + match goal with |- context [playSoundEffect ?e ?x] =>
        destruct (playSoundEffect_ok e x) as (? & -> & _) end.
      now intros [= <-].
    + now intros [= <-].
  - destruct preload; cbn [allocAudio withAudioRef audioRef].
    + rewrite setVolume_clamp. cbn [bind].
      destruct autoplay.
      * match goal with |- context [playSoundEffect ?e ?x] =>
          destruct (playSoundEffect_ok e x) as (? & -> & _) end.
        now intros [= <-].
      * now intros [= <-].
    + rewrite Ha. cbn [bind].
      destruct autoplay.
      * destruct (playSoundEffect_ok env s) as (? & -> & _). now intros [= <-].
      * now intros [= <-].
Qed.

(** X14.  Muting through [settingsKey] reaches only the element the mount
    preloads.  The current volume of the mounted hook is the store volume
    all the same, so a [play] from a render that saw this state plays its
    element at the clamped store volume, not at 0. *)
Theorem play_ignores_muted {Key : Type} (url : string)
    (settings : Key -> option SoundSetting) (options : Options.t Key) (r : float) :
  storeMuted settings options = true ->
  exists s,
    mount url settings options r = Ok s
    /\ mutedVolume settings options = 0
    /\ currentVolume s = storeVolume settings options
    /\ forall url' loops lo hi,
       exists s2 b,
         playSoundEffect (freshRender url' loops lo hi s) s = Ok s2
         /\ audioRef s2 = Some b /\ paused b = false
         /\ volume b == clampVolume (storeVolume settings options).
Proof.
  intros Hmuted. unfold mount.
  destruct (mountEffect (firstRender url settings options)
              (mutedVolume settings options)
              (orDefault (Options.preload options) true)
              (orDefault (Options.autoplay options) false)
              (initialHook (storeVolume settings options))) as [s1|] eqn:H1.
  - apply mountEffect_currentVolume in H1. cbn [bind].
    destruct (randomEffect_fields (firstRender url settings options)
                (orDefault (Options.playRandomly options) false) r s1)
      as (s & -> & _ & _ & Hv & _).
    exists s. split; [reflexivity|].
    split; [unfold mutedVolume; now rewrite Hmuted|].
    assert (Hcur : currentVolume s = storeVolume settings options)
      by (rewrite Hv, H1; reflexivity).
    split; [exact Hcur|].
    intros url' loops lo hi.
    destruct (playSoundEffect_ok (freshRender url' loops lo hi s) s)
      as (b & Heq & _ & Hp & Hb).
    rewrite Heq. eexists. exists b. split; [reflexivity|].
    split; [reflexivity|]. split; [exact Hp|].
    cbn in Hb. now rewrite Hcur in Hb.
  - destruct (mountEffect_ok (firstRender url settings options)
                (mutedVolume settings options)
                (orDefault (Options.preload options) true)
                (orDefault (Options.autoplay options) false)
                (initialHook (storeVolume settings options))) as (s1 & Hs1).
    congruence.
Qed.

Lemma play_ignores_muted_witness :
  exists s s2 b,
    mount "/audio/press.mp3" sampleStore buttonOptions 0.5%float = Ok s
    /\ playSoundEffect (freshRender "/audio/press.mp3" false 5000 15000 s) s
       = Ok s2
    /\ audioRef s2 = Some b
    /\ volume b == 1 # 2.
Proof.
  destruct (play_ignores_muted "/audio/press.mp3" sampleStore buttonOptions
              0.5%float eq_refl) as (s & Hm & _ & _ & Hplay).
  destruct (Hplay "/audio/press.mp3" false 5000%float 15000%float)
    as (s2 & b & Hrun & Hb & _ & Hv).
  exists s, s2, b. repeat split; assumption.
Defined.

(** * Further properties of the card *)

(** ** What a render gives *)

(** X15.  The card renders [null] exactly when the store has no server; with
    a server it throws exactly when [username] is empty, and otherwise gives
    a view whose title is [username]. *)
Theorem UserCard_outcomes (toUpperCase : string -> string) (st : ServerStore)
    (user : ServerUser) :
  (UserCard toUpperCase st user = Ok None <-> server st = None)
  /\ ((exists e, UserCard toUpperCase st user = Throw e) <->
      server st <> None /\ username user = "")
  /\ ((exists v, UserCard toUpperCase st user = Ok (Some v)
                 /\ title v = username user) <->
      server st <> None /\ username user <> "").
Proof.
  unfold UserCard, initial.
  destruct (server st) as [srv|]; destruct (username user) as [|c rest]; cbn.
  - split; [split; discriminate|]. split.
    + split; [intros _; split; [discriminate | reflexivity] | eauto].
    + split; [intros (v & H & _); discriminate | intros [_ H]; congruence].
  - split; [split; discriminate|]. split.
    + split; [intros (e & H); discriminate | intros [_ H]; discriminate].
    + split; [intros _; split; discriminate|].
      intros _. eexists. split; reflexivity.
  - split; [tauto|]. split.
    + split; [intros (e & H); discriminate | intros [H _]; congruence].
    + split; [intros (v & H & _); discriminate | intros [H _]; congruence].
  - split; [tauto|]. split.
    + split; [intros (e & H); discriminate | intros [H _]; congruence].
    + split; [intros (v & H & _); discriminate | intros [H _]; congruence].
Qed.

(** ** The paragraph *)

Lemma length_append (s1 s2 : string) :
  String.length (s1 ++ s2) = (String.length s1 + String.length s2)%nat.
Proof. induction s1 as [|c s1 IH]; cbn; [reflexivity | now rewrite IH]. Qed.

Lemma displayContent_length (s : string) :
  (String.length (displayContent s) <= 23)%nat.
Proof.
  unfold displayContent, slice20.
  destruct (Nat.ltb 20 (String.length s)) eqn:E.
  - apply Nat.ltb_lt in E.
    destruct (substring_prefix 20 s) as (rest & _ & Hl); [lia|].
    rewrite length_append, Hl. cbn. lia.
  - apply Nat.ltb_ge in E. lia.
Qed.

(** X16.  Whatever the messages are, the paragraph of the card is at most 28
    code units long: at most 20 of the content, the three dots and
    'You: '. *)
Theorem subtitle_length (st : ServerStore) (srv : ServerResponse)
    (uid : string) :
  (String.length (subtitle st srv uid) <= 28)%nat.
Proof.
  unfold subtitle.
  destruct (includes (typingUsers st) uid); [cbn; lia|].
  destruct (lastMessage uid (messages st)) as [m|]; [|cbn; lia].
  rewrite length_append. pose proof (displayContent_length (content m)).
  destruct (String.eqb (senderId m) (owner srv)); cbn [String.length]; lia.
Qed.

(** X17.  The paragraph has the typing style exactly when the user is typing,
    and the unread style exactly when the user is not typing and the row is
    highlighted; the row is highlighted exactly when there is a last message,
    someone other than the owner sent it and the receiver has not read it. *)
Theorem subtitleClass_cases (st : ServerStore) (srv : ServerResponse)
    (uid : string) :
  (subtitleClass st srv uid = "text-orange-400 animate-pulse" <->
   In uid (typingUsers st))
  /\ (subtitleClass st srv uid = "text-white" <->
      ~ In uid (typingUsers st) /\ highlighted st srv uid = true)
  /\ (highlighted st srv uid = true <->
      exists m, lastMessage uid (messages st) = Some m
                /\ senderId m <> owner srv /\ readByReceiver m = false).
Proof.
  unfold subtitleClass, highlighted, sentByOwner, unread.
  rewrite <- (includes_iff (typingUsers st) uid).
  destruct (includes (typingUsers st) uid);
    destruct (lastMessage uid (messages st)) as [m|];
    try destruct (String.eqb_spec (senderId m) (owner srv)) as [E | E];
    try destruct (readByReceiver m) eqn:R; cbn;
    repeat split;
    try discriminate; try congruence; try tauto;
    try (intros [H1 H2]; congruence);
    try (intros (m' & [= <-] & H1 & H2); congruence);
    try (intros _; exists m; repeat split; assumption);
    try (intros (m' & H & _); discriminate).
Qed.

(** ** The last message as messages arrive *)

(** X18.  When messages are appended to the store, the last message of the
    card is the last message among the new ones if one of them concerns the
    user, and stays what it was otherwise. *)
Theorem lastMessage_app (uid : string) (older newer : list Message) :
  lastMessage uid (older ++ newer) =
  match lastMessage uid newer with
  | Some m => Some m
  | None => lastMessage uid older
  end.
Proof.
  induction newer as [|m newer IH] using rev_ind.
  - now rewrite app_nil_r.
  - rewrite app_assoc, !lastMessage_snoc.
    destruct (concerns uid m); [reflexivity | exact IH].
Qed.

(** X19.  Messages between other users never change the card: its last
    message is that of the list with those messages removed. *)
Theorem lastMessage_own_messages (uid : string) (msgs : list Message) :
  lastMessage uid (filter (concerns uid) msgs) = lastMessage uid msgs.
Proof.
  induction msgs as [|m msgs IH] using rev_ind; [reflexivity|].
  rewrite filter_app, lastMessage_snoc. cbn.
  destruct (concerns uid m) eqn:E.
  - rewrite lastMessage_snoc, E. reflexivity.
  - now rewrite app_nil_r.
Qed.

(** ** Muting and clicking *)

Lemma click_press (pressEnv openEnv : Render) (st : ServerStore)
    (uid : string) (c : Card) :
  exists c' a,
    handleSetCurrentlyChatting pressEnv openEnv st uid c = Ok c'
    /\ audioRef (playPressSound c') = Some a
    /\ paused a = false
    /\ volume a == clampVolume (renderVolume pressEnv).
Proof.
  unfold handleSetCurrentlyChatting.
  destruct (playSoundEffect_ok pressEnv (playPressSound c))
    as (a & -> & _ & Hp & Hv).
  cbn [bind].
  destruct (find _ _) as [user|].
  - destruct (playSoundEffect_ok openEnv (playOpenSound c)) as (b & -> & _).
    cbn [bind]. eexists. exists a. split; [reflexivity|]. cbn. auto.
  - eexists. exists a. split; [reflexivity|]. cbn. auto.
Qed.

(** X20.  For settings whose volumes are real numbers, after the card's
    volume effects ran for the current settings, a click plays the press
    sound at the clamped button volume, which is 0 when the button sound is
    muted. *)
Theorem click_after_sync (settings : Settings) (st : ServerStore)
    (uid : string) (c : Card) :
  exists c1 c2 a,
    syncVolumes settings c = Ok c1
    /\ chattingCalls c1 = chattingCalls c
    /\ handleSetCurrentlyChatting
         (freshRender "/audio/press.mp3" false 5000 15000 (playPressSound c1))
         (freshRender "/audio/open.mp3" false 5000 15000 (playOpenSound c1))
         st uid c1 = Ok c2
    /\ audioRef (playPressSound c2) = Some a
    /\ paused a = false
    /\ volume a == clampVolume (audible (buttonSound settings))
    /\ (isMuted (buttonSound settings) = true -> volume a == 0).
Proof.
  unfold syncVolumes. rewrite !adjustVolume_ok. cbn [bind snd].
  eexists.
  match goal with |- context [handleSetCurrentlyChatting ?pe ?oe st uid ?c1] =>
    destruct (click_press pe oe st uid c1) as (c2 & a & Hclick & Ha & Hp & Hv)
  end.
  exists c2, a. split; [reflexivity|]. split; [reflexivity|].
  split; [exact Hclick|]. split; [exact Ha|]. split; [exact Hp|].
  cbn in Hv.
  assert (Hc : volume a == clampVolume (audible (buttonSound settings))).
  { rewrite Hv. destruct (clampVolume_range (audible (buttonSound settings))).
    now apply clampVolume_fixed. }
  split; [exact Hc|].
  intros Hmuted. rewrite Hc. unfold audible. rewrite Hmuted. reflexivity.
Qed.

Lemma click_after_sync_witness :
  exists c1 c2 a,
    syncVolumes sampleSettings sampleCard = Ok c1
    /\ handleSetCurrentlyChatting
         (freshRender "/audio/press.mp3" false 5000 15000 (playPressSound c1))
         (freshRender "/audio/open.mp3" false 5000 15000 (playOpenSound c1))
         (mkServerStore (Some room) [] [bob] []) "u1" c1 = Ok c2
    /\ audioRef (playPressSound c2) = Some a
    /\ volume a == 0.
Proof.
  destruct (click_after_sync sampleSettings
              (mkServerStore (Some room) [] [bob] []) "u1" sampleCard)
    as (c1 & c2 & a & Hsync & _ & Hclick & Ha & _ & _ & Hmuted).
  exists c1, c2, a. repeat split; try assumption. now apply Hmuted.
Defined.

Lemma UserCard_outcomes_witness :
  exists v,
    UserCard asciiToUpperCase (mkServerStore (Some room) [] [bob] []) bob
    = Ok (Some v)
    /\ title v = "bob".
Proof.
  apply (UserCard_outcomes asciiToUpperCase
           (mkServerStore (Some room) [] [bob] []) bob).
  split; discriminate.
Defined.

Lemma subtitleClass_cases_witness :
  subtitleClass (mkServerStore (Some room) [reply; hello] [bob] []) room "u1"
  = "text-white".
Proof.
  apply (subtitleClass_cases
           (mkServerStore (Some room) [reply; hello] [bob] []) room "u1").
  split; [intros [] | reflexivity].
Defined.

(** * Further properties of the replays *)


